(** * Prospector contact engine: record normalisation, filtering, statistics
      and keyword ranking

    A shallow embedding of [app/tools/contact_tools.py].  Python values are
    modelled as follows:

    - [str] is [string] (a sequence of 8-bit characters); [str.lower],
      [str.strip] and the substring test act on the ASCII range, which is
      where they coincide with the Unicode versions;
    - [int] is [Z], [len] results and dictionary counters are [nat];
    - a raw CSV row ([Dict[str, str]]) is a [gmap string string];
    - the dictionary built by [transform_apollo_to_contact] has a fixed key
      set, so it is a record [Contact] with a dynamic accessor
      [contact_get] for the places where the source indexes it by a
      run-time field name;
    - an exception is a value of [exn]; code that can raise lives in
      [result]. *)

From Stdlib Require Import ZArith QArith Ascii String List Lia Bool Permutation Sorted.
From stdpp Require Import base strings gmap list fin_maps pretty.

(** ** Exceptions *)

Inductive exn : Type :=
  | ValueError
  | TypeError
  | AttributeError.

Inductive result (A : Type) : Type :=
  | Ok (a : A)
  | Raise (e : exn).

Arguments Ok {A} a.
Arguments Raise {A} e.

Definition rbind {A B : Type} (m : result A) (k : A → result B) : result B :=
  match m with
  | Ok a => k a
  | Raise e => Raise e
  end.

Notation "'let*' x ':=' m 'in' k" := (rbind m (λ x, k))
  (at level 10, x name, m at level 100, k at level 200, only parsing).

Definition is_ok {A : Type} (m : result A) : bool :=
  match m with Ok _ => true | Raise _ => false end.

#[global] Instance exn_eq_dec : EqDecision exn.
Proof. solve_decision. Defined.

#[global] Instance result_eq_dec {A : Type} `{EqDecision A} : EqDecision (result A).
Proof. solve_decision. Defined.

(** ** Python string primitives *)

Module Py.

Definition code (c : ascii) : N := N_of_ascii c.

(** [bool(s)] for a [str]. *)
Definition truthy_str (s : string) : bool :=
  match s with
  | EmptyString => false
  | String _ _ => true
  end.

(** [bool(d.get(k))]: [None] and the empty string are falsy. *)
Definition truthy_get (v : option string) : bool :=
  match v with
  | Some s => truthy_str s
  | None => false
  end.

(** [d.get(k, default)]. *)
Definition get_default (d : gmap string string) (k default : string) : string :=
  match d !! k with
  | Some v => v
  | None => default
  end.

(** Whitespace of [str.strip()] in the ASCII range:
    TAB, LF, VT, FF, CR, FS, GS, RS, US and SPACE. *)
Definition is_space (c : ascii) : bool :=
  let n := code c in
  ((9 <=? n) && (n <=? 13) || (28 <=? n) && (n <=? 32))%N.

(** Whitespace skipped by [int()] on an ASCII string. *)
Definition is_c_space (c : ascii) : bool :=
  let n := code c in
  ((9 <=? n) && (n <=? 13) || (n =? 32))%N.

Definition is_upper (c : ascii) : bool :=
  let n := code c in ((65 <=? n) && (n <=? 90))%N.

Definition lower_char (c : ascii) : ascii :=
  if is_upper c then ascii_of_N (code c + 32) else c.

(** [s.lower()] *)
Fixpoint lower (s : string) : string :=
  match s with
  | EmptyString => EmptyString
  | String c r => String (lower_char c) (lower r)
  end.

Fixpoint lstrip (s : string) : string :=
  match s with
  | EmptyString => EmptyString
  | String c r => if is_space c then lstrip r else s
  end.

Fixpoint rstrip (s : string) : string :=
  match s with
  | EmptyString => EmptyString
  | String c r =>
      match rstrip r with
      | EmptyString => if is_space c then EmptyString else String c EmptyString
      | r' => String c r'
      end
  end.

(** [s.strip()] *)
Definition strip (s : string) : string := rstrip (lstrip s).

(** [s.split(sep)] for a one-character separator: never the empty list. *)
Fixpoint split (sep : ascii) (s : string) : list string :=
  match s with
  | EmptyString => [EmptyString]
  | String c r =>
      if Ascii.eqb c sep then EmptyString :: split sep r
      else match split sep r with
           | [] => [String c EmptyString]
           | w :: ws => String c w :: ws
           end
  end.

(** [sep.join(l)] *)
Fixpoint join (sep : string) (l : list string) : string :=
  match l with
  | [] => EmptyString
  | [x] => x
  | x :: r => x +:+ sep +:+ join sep r
  end.

(** [needle in hay] on strings. *)
Fixpoint contains (needle hay : string) : bool :=
  String.prefix needle hay ||
  match hay with
  | EmptyString => false
  | String _ r => contains needle r
  end.

(** *** [int(s)] in base 10 *)

Definition digit_value (c : ascii) : option Z :=
  let n := code c in
  if ((48 <=? n) && (n <=? 57))%N then Some (Z.of_N n - 48)%Z else None.

Fixpoint lskip (p : ascii → bool) (s : string) : string :=
  match s with
  | EmptyString => EmptyString
  | String c r => if p c then lskip p r else s
  end.

(** The literal scanned by [int]: digits, with single underscores allowed
    between two digits.  [prev_us] records that the previous character was
    an underscore (or that nothing was scanned yet); the result is the
    value, the number of digits and the unread rest. *)
Fixpoint scan_digits (s : string) (acc : Z) (count : nat) (prev_us : bool)
  : option (Z * nat * string) :=
  match s with
  | EmptyString => if prev_us then None else Some (acc, count, EmptyString)
  | String c r =>
      match digit_value c with
      | Some d => scan_digits r (10 * acc + d)%Z (S count) false
      | None =>
          if Ascii.eqb c "_" then
            if prev_us then None else scan_digits r acc count true
          else if prev_us then None else Some (acc, count, s)
      end
  end.

(** [sys.int_max_str_digits], the default limit on decimal literals. *)
Definition int_max_str_digits : nat := 4300.

Definition int (s : string) : result Z :=
  let s1 := lskip is_c_space s in
  let '(negative, s2) :=
    match s1 with
    | String "-" r => (true, r)
    | String "+" r => (false, r)
    | _ => (false, s1)
    end in
  match scan_digits s2 0%Z 0 true with
  | Some (n, count, rest) =>
      match lskip is_c_space rest with
      | EmptyString =>
          if Nat.ltb int_max_str_digits count then Raise ValueError
          else Ok (if negative then (- n)%Z else n)
      | String _ _ => Raise ValueError
      end
  | None => Raise ValueError
  end.

End Py.

(** ** Raw records and contacts *)

(** One row of the Apollo export, keyed by column name. *)
Abbreviation RawRecord := (gmap string string).

Record Contact : Type := mkContact {
  id : string;
  firstName : option string;
  lastName : option string;
  email : string;
  emailStatus : string;
  title : option string;
  seniority : option string;
  linkedinUrl : option string;
  country : option string;
  city : option string;
  companyName : option string;
  companyWebsite : option string;
  companySize : Z;
  companySizeBucket : string;
  industry : option string;
  technologies : list string;
  keywords : list string;
  stage : string;
  contactState : string;
  qualityScore : Z;
  isExecutive : bool;
}.

(** ** Record normaliser *)

Definition calculate_quality_score (record : RawRecord) : Z :=
  let score := 0%Z in
  (* Basic info (40 points) *)
  let score := if Py.truthy_get (record !! "First Name") then (score + 5)%Z else score in
  let score := if Py.truthy_get (record !! "Last Name") then (score + 5)%Z else score in
  let score := if Py.truthy_get (record !! "Email") then (score + 10)%Z else score in
  let score := if Py.truthy_get (record !! "Title") then (score + 10)%Z else score in
  let score := if Py.truthy_get (record !! "Company Name") then (score + 10)%Z else score in
  (* Contact details (20 points) *)
  let score := if Py.truthy_get (record !! "Person Linkedin Url") then (score + 10)%Z else score in
  let score :=
    if Py.truthy_get (record !! "Mobile Phone") || Py.truthy_get (record !! "Work Direct Phone")
    then (score + 10)%Z else score in
  (* Rich data (20 points) *)
  let score := if Py.truthy_get (record !! "Keywords") then (score + 5)%Z else score in
  let score := if Py.truthy_get (record !! "Technologies") then (score + 5)%Z else score in
  let score := if Py.truthy_get (record !! "Industry") then (score + 5)%Z else score in
  let score := if Py.truthy_get (record !! "# Employees") then (score + 5)%Z else score in
  (* Verification (20 points) *)
  let score :=
    if bool_decide (record !! "Email Status" = Some "Verified") then (score + 10)%Z else score in
  let score :=
    if bool_decide (record !! "Primary Email Catch-all Status" = Some "Not Catch-all")
    then (score + 10)%Z else score in
  score.

(** [record.get(k) in ['true', 'True', True]]: the values of a raw record are
    strings, and no string equals the boolean [True]. *)
Definition flag (record : RawRecord) (k : string) : bool :=
  match record !! k with
  | Some v => bool_decide (v = "true") || bool_decide (v = "True")
  | None => false
  end.

Definition determine_contact_state (record : RawRecord) : string :=
  let replied := flag record "Replied" in
  let demoed := flag record "Demoed" in
  let bounced := flag record "Email Bounced" in
  let opened := flag record "Email Open" in
  let sent := flag record "Email Sent" in
  let has_email := Py.truthy_get (record !! "Email") in
  let stage := Py.get_default record "Stage" "" in
  if replied then "REPLIED"
  else if demoed then "DEMOED"
  else if bounced then "BOUNCED"
  else if opened then "OPENED"
  else if sent then "SENT"
  else if has_email then
    if bool_decide (stage = "Interested") then "INTERESTED_NOT_CONTACTED"
    else "NOT_CONTACTED"
  else "INCOMPLETE".

Definition executive_keywords : list string :=
  ["suite"; "founder"; "ceo"; "cto"; "cfo"; "coo"; "chief"].

Definition is_executive_contact (record : RawRecord) : bool :=
  let seniority := Py.lower (Py.get_default record "Seniority" "") in
  let title := Py.lower (Py.get_default record "Title" "") in
  existsb (λ keyword, Py.contains keyword seniority || Py.contains keyword title)
          executive_keywords.

(** [[t.strip() for t in s.split(',') if t.strip()]] *)
Definition parse_list (s : string) : list string :=
  omap (λ t, if Py.truthy_str (Py.strip t) then Some (Py.strip t) else None)
       (Py.split "," s).

(** The [if]/[elif] chain on the employee count. *)
Definition size_bucket (company_size : Z) : string :=
  if (company_size <=? 10)%Z then "1-10 (Micro)"
  else if (company_size <=? 50)%Z then "11-50 (Small)"
  else if (company_size <=? 200)%Z then "51-200 (Medium)"
  else if (company_size <=? 500)%Z then "201-500 (Large)"
  else "500+ (Enterprise)".

(** [x or '0'] on strings. *)
Definition str_or (x default : string) : string :=
  if Py.truthy_str x then x else default.

Definition transform_apollo_to_contact (record : RawRecord) : result Contact :=
  let quality_score := calculate_quality_score record in
  let is_executive := is_executive_contact record in
  let contact_state := determine_contact_state record in
  let technologies := parse_list (Py.get_default record "Technologies" "") in
  let keywords := parse_list (Py.get_default record "Keywords" "") in
  let* company_size := Py.int (str_or (Py.get_default record "# Employees" "0") "0") in
  Ok {| id := Py.get_default record "Apollo Contact Id" "";
        firstName := record !! "First Name";
        lastName := record !! "Last Name";
        email := Py.get_default record "Email" "";
        emailStatus := Py.get_default record "Email Status" "User Managed";
        title := record !! "Title";
        seniority := record !! "Seniority";
        linkedinUrl := record !! "Person Linkedin Url";
        country := record !! "Country";
        city := record !! "City";
        companyName := record !! "Company Name";
        companyWebsite := record !! "Website";
        companySize := company_size;
        companySizeBucket := size_bucket company_size;
        industry := record !! "Industry";
        technologies := technologies;
        keywords := keywords;
        stage := Py.get_default record "Stage" "Cold";
        contactState := contact_state;
        qualityScore := quality_score;
        isExecutive := is_executive |}.

(** [load_contacts_from_csv] applied to the rows read from the export: the
    first row that fails to normalise aborts the load. *)
Fixpoint load_contacts (rows : list RawRecord) : result (list Contact) :=
  match rows with
  | [] => Ok []
  | row :: rest =>
      let* c := transform_apollo_to_contact row in
      let* cs := load_contacts rest in
      Ok (c :: cs)
  end.

(** ** Dynamically typed values

    The values a contact dictionary holds and a generic clause can carry:
    [None], [bool], [int], [str] and lists of [str]. *)

Inductive pyval : Type :=
  | VNone
  | VBool (b : bool)
  | VInt (n : Z)
  | VStr (s : string)
  | VList (l : list string).

Definition opt_str (v : option string) : pyval :=
  match v with
  | Some s => VStr s
  | None => VNone
  end.

(** [bool(v)] *)
Definition py_truthy (v : pyval) : bool :=
  match v with
  | VNone => false
  | VBool b => b
  | VInt n => negb (n =? 0)%Z
  | VStr s => Py.truthy_str s
  | VList l => match l with [] => false | _ :: _ => true end
  end.

(** [bool] is a subtype of [int]: [True] is 1 and [False] is 0. *)
Definition py_number (v : pyval) : option Z :=
  match v with
  | VBool b => Some (if b then 1 else 0)%Z
  | VInt n => Some n
  | _ => None
  end.

(** [a == b]; values of unrelated types are unequal, never an error. *)
Definition py_eq (a b : pyval) : bool :=
  match a, b with
  | VNone, VNone => true
  | VStr s, VStr t => bool_decide (s = t)
  | VList l, VList k => bool_decide (l = k)
  | _, _ =>
      match py_number a, py_number b with
      | Some x, Some y => (x =? y)%Z
      | _, _ => false
      end
  end.

(** [l1 >= l2] on lists of strings: decided at the first differing pair,
    else by length. *)
Fixpoint list_ge (l1 l2 : list string) : bool :=
  match l1, l2 with
  | _, [] => true
  | [], _ :: _ => false
  | x :: r1, y :: r2 => if String.eqb x y then list_ge r1 r2 else String.leb y x
  end.

(** [a >= b]; ordering values of unrelated types raises [TypeError]. *)
Definition py_ge (a b : pyval) : result bool :=
  match a, b with
  | VStr s, VStr t => Ok (String.leb t s)
  | VList l, VList k => Ok (list_ge l k)
  | _, _ =>
      match py_number a, py_number b with
      | Some x, Some y => Ok (y <=? x)%Z
      | _, _ => Raise TypeError
      end
  end.

Definition backslash : ascii := ascii_of_N 92.
Definition double_quote : ascii := ascii_of_N 34.

Definition hex_digit (n : N) : ascii :=
  ascii_of_N (if (n <? 10)%N then 48 + n else 87 + n).

(** One character of [repr(s)] written between [quote]s. *)
Definition repr_char (quote c : ascii) : string :=
  let n := Py.code c in
  if Ascii.eqb c quote || Ascii.eqb c backslash then String backslash (String c EmptyString)
  else if (n =? 9)%N then String backslash "t"
  else if (n =? 10)%N then String backslash "n"
  else if (n =? 13)%N then String backslash "r"
  else if ((n <? 32) || (n =? 127))%N then
    String backslash
      (String "x" (String (hex_digit (n / 16)) (String (hex_digit (n mod 16)) EmptyString)))
  else String c EmptyString.

Fixpoint repr_body (quote : ascii) (s : string) : string :=
  match s with
  | EmptyString => EmptyString
  | String c r => repr_char quote c +:+ repr_body quote r
  end.

(** [repr(s)]: single quotes, unless the string holds a single quote and no
    double quote. *)
Definition py_repr_str (s : string) : string :=
  let quote : ascii :=
    if Py.contains "'" s && negb (Py.contains (String double_quote EmptyString) s)
    then double_quote else "'"%char in
  String quote (repr_body quote s) +:+ String quote EmptyString.

(** [str(v)] *)
Definition py_str (v : pyval) : string :=
  match v with
  | VNone => "None"
  | VBool b => if b then "True" else "False"
  | VInt n => pretty n
  | VStr s => s
  | VList l => "[" +:+ Py.join ", " (py_repr_str <$> l) +:+ "]"
  end.

(** [v.lower()]: only [str] has the method. *)
Definition py_lower (v : pyval) : result string :=
  match v with
  | VStr s => Ok (Py.lower s)
  | _ => Raise AttributeError
  end.

(** ** The contact as a dictionary *)

(** The key/value pairs of the dictionary returned by
    [transform_apollo_to_contact], in insertion order. *)
Definition items (c : Contact) : list (string * pyval) :=
  [ ("id", VStr (id c));
    ("firstName", opt_str (firstName c));
    ("lastName", opt_str (lastName c));
    ("email", VStr (email c));
    ("emailStatus", VStr (emailStatus c));
    ("title", opt_str (title c));
    ("seniority", opt_str (seniority c));
    ("linkedinUrl", opt_str (linkedinUrl c));
    ("country", opt_str (country c));
    ("city", opt_str (city c));
    ("companyName", opt_str (companyName c));
    ("companyWebsite", opt_str (companyWebsite c));
    ("companySize", VInt (companySize c));
    ("companySizeBucket", VStr (companySizeBucket c));
    ("industry", opt_str (industry c));
    ("technologies", VList (technologies c));
    ("keywords", VList (keywords c));
    ("stage", VStr (stage c));
    ("contactState", VStr (contactState c));
    ("qualityScore", VInt (qualityScore c));
    ("isExecutive", VBool (isExecutive c)) ].

Fixpoint assoc (k : string) (l : list (string * pyval)) : option pyval :=
  match l with
  | [] => None
  | (k', v) :: r => if String.eqb k k' then Some v else assoc k r
  end.

(** [Some v] when [field in c], with [v = c[field]]. *)
Definition contact_get (c : Contact) (field : string) : option pyval :=
  assoc field (items c).

(** [c.get(field, d)] *)
Definition contact_get_default (c : Contact) (field : string) (d : pyval) : pyval :=
  match contact_get c field with
  | Some v => v
  | None => d
  end.

(** ** Filter engine *)

(** A list comprehension whose condition can raise: the contacts are tested
    in order and the first exception ends the comprehension. *)
Fixpoint filter_r {A : Type} (p : A → result bool) (l : list A) : result (list A) :=
  match l with
  | [] => Ok []
  | x :: r =>
      let* b := p x in
      let* r' := filter_r p r in
      Ok (if b then x :: r' else r')
  end.

(** One generic clause, a dictionary read with [clause.get]: an absent key
    reads as [None].  Field and operator names are strings. *)
Record Clause : Type := mkClause {
  clause_field : option string;
  clause_operator : option string;
  clause_value : pyval;
}.

(** [field in c and c[field] and value.lower() in str(c[field]).lower()] *)
Definition contains_test (field : string) (value : pyval) (c : Contact) : result bool :=
  match contact_get c field with
  | None => Ok false
  | Some v =>
      if py_truthy v then
        let* needle := py_lower value in
        Ok (Py.contains needle (Py.lower (py_str v)))
      else Ok false
  end.

(** [c.get(field) == value] *)
Definition equals_test (field : string) (value : pyval) (c : Contact) : bool :=
  py_eq (contact_get_default c field VNone) value.

(** [c.get(field, 0) >= value] *)
Definition gte_test (field : string) (value : pyval) (c : Contact) : result bool :=
  py_ge (contact_get_default c field (VInt 0)) value.

(** The body of the loop over [where_clauses]. *)
Definition apply_clause (contacts : list Contact) (clause : Clause) : result (list Contact) :=
  let field := clause_field clause in
  let operator := clause_operator clause in
  let value := clause_value clause in
  match field with
  | Some f =>
      if bool_decide (operator = Some "contains") && Py.truthy_str f then
        filter_r (contains_test f value) contacts
      else if bool_decide (operator = Some "equals") && Py.truthy_str f then
        Ok (filter (λ c, equals_test f value c = true) contacts)
      else if bool_decide (operator = Some "gte") && Py.truthy_str f then
        filter_r (gte_test f value) contacts
      else Ok contacts
  | None => Ok contacts
  end.

Fixpoint apply_clauses (contacts : list Contact) (clauses : list Clause)
  : result (list Contact) :=
  match clauses with
  | [] => Ok contacts
  | clause :: rest =>
      let* contacts := apply_clause contacts clause in
      apply_clauses contacts rest
  end.

(** The typed filters of [query_contacts_tool]. *)
Record Filters : Type := mkFilters {
  min_quality_score : option Z;
  is_executive : option bool;
  country_filter : option string;
  industry_filter : option string;
  contact_state : option string;
}.

(** [if s:] followed by [c.get(k) == s] for an optional string filter. *)
Definition filter_by_str (get : Contact → option string) (s : option string)
    (contacts : list Contact) : list Contact :=
  if Py.truthy_get s then filter (λ c, get c = s) contacts else contacts.

(** The filtering part of [query_contacts_tool] (lines 168 to 199): the list
    bound to [contacts] when the limit is applied. *)
Definition filter_contacts (contacts : list Contact) (f : Filters)
    (where_clauses : option (list Clause)) : result (list Contact) :=
  let contacts :=
    match min_quality_score f with
    | Some m => filter (λ c, (m ≤ qualityScore c)%Z) contacts
    | None => contacts
    end in
  let contacts :=
    match is_executive f with
    | Some e => filter (λ c, isExecutive c = e) contacts
    | None => contacts
    end in
  let contacts := filter_by_str country (country_filter f) contacts in
  let contacts := filter_by_str industry (industry_filter f) contacts in
  let contacts := filter_by_str (λ c, Some (contactState c)) (contact_state f) contacts in
  match where_clauses with
  | Some (clause :: rest) => apply_clauses contacts (clause :: rest)
  | _ => Ok contacts
  end.

(** [l[:limit]]: a negative bound counts from the end. *)
Definition slice_to {A : Type} (l : list A) (limit : Z) : list A :=
  if (0 <=? limit)%Z then take (Z.to_nat limit) l
  else take (length l - Z.to_nat (- limit)) l.

Module Minimal.
(** The fields returned to the caller for one contact. *)
Record t : Type := mk {
  id : string;
  firstName : option string;
  lastName : option string;
  email : string;
  title : option string;
  companyName : option string;
  industry : option string;
  country : option string;
  qualityScore : Z;
  isExecutive : bool;
  contactState : string;
}.
End Minimal.

Definition minimal (c : Contact) : Minimal.t :=
  {| Minimal.id := id c;
     Minimal.firstName := firstName c;
     Minimal.lastName := lastName c;
     Minimal.email := email c;
     Minimal.title := title c;
     Minimal.companyName := companyName c;
     Minimal.industry := industry c;
     Minimal.country := country c;
     Minimal.qualityScore := qualityScore c;
     Minimal.isExecutive := isExecutive c;
     Minimal.contactState := contactState c |}.

Module QueryResult.
Record t : Type := mk {
  contacts : list Minimal.t;
  total : nat;
  returned : nat;
  filters_applied : Filters;
}.
End QueryResult.

(** [query_contacts_tool] on the contacts loaded from the export. *)
Definition query_contacts_tool (contacts : list Contact)
    (where_clauses : option (list Clause)) (f : Filters) (limit : Z)
  : result QueryResult.t :=
  let* contacts := filter_contacts contacts f where_clauses in
  let limited := slice_to contacts limit in
  let minimal := minimal <$> limited in
  Ok {| QueryResult.contacts := minimal;
        QueryResult.total := length contacts;
        QueryResult.returned := length minimal;
        QueryResult.filters_applied := f |}.

(** ** Stats aggregator *)

(** [d[k] = d.get(k, 0) + 1] *)
Definition count_key (d : gmap string nat) (k : string) : gmap string nat :=
  <[k := default 0 (d !! k) + 1]> d.

(** [for c in contacts: d[key(c)] = d.get(key(c), 0) + 1], starting from an
    empty dictionary. *)
Definition count_by (key : Contact → string) (contacts : list Contact) : gmap string nat :=
  foldl (λ d c, count_key d (key c)) ∅ contacts.

(** [sum(1 for c in contacts if p(c))] *)
Definition count_if (p : Contact → bool) (contacts : list Contact) : nat :=
  length (List.filter p contacts).

(** The value of [avgQualityScore].  The mean is a floating-point number and
    is kept as the two integers it is computed from. *)
Inductive Average : Type :=
  | AvgInt (n : Z)                    (* [round(n, 1)] of the integer [n] *)
  | AvgRound1 (sum : Z) (count : nat) (* [round(sum / count, 1)] *).

(** [str(c.get(group_by, 'Unknown'))] *)
Definition breakdown_key (group_by : string) (c : Contact) : string :=
  py_str (contact_get_default c group_by (VStr "Unknown")).

Module Stats.
Record t : Type := mk {
  total : nat;
  byState : gmap string nat;
  byStage : gmap string nat;
  executives : nat;
  verifiedNotContacted : nat;
  highQualityNotContacted : nat;
  avgQualityScore : Average;
  breakdown : option (gmap string nat);
}.
End Stats.

(** [get_contact_stats_tool] on the contacts loaded from the export.  The
    keys [contactState] and [stage] are present in every contact, so the
    defaults of [c.get] on them are never taken. *)
Definition get_contact_stats_tool (contacts : list Contact) (group_by : option string)
  : Stats.t :=
  let by_state := count_by contactState contacts in
  let by_stage := count_by stage contacts in
  let executives := count_if isExecutive contacts in
  let verified_not_contacted :=
    count_if (λ c, bool_decide (emailStatus c = "Verified")
                   && bool_decide (contactState c = "NOT_CONTACTED")) contacts in
  let high_quality_not_contacted :=
    count_if (λ c, (70 <=? qualityScore c)%Z
                   && (bool_decide (contactState c = "NOT_CONTACTED")
                       || bool_decide (contactState c = "INTERESTED_NOT_CONTACTED")))
             contacts in
  let avg_quality :=
    match contacts with
    | _ :: _ => AvgRound1 (foldr Z.add 0%Z (qualityScore <$> contacts)) (length contacts)
    | [] => AvgInt 0
    end in
  let breakdown :=
    if Py.truthy_get group_by then
      match group_by with
      | Some g => Some (count_by (breakdown_key g) contacts)
      | None => None
      end
    else None in
  {| Stats.total := length contacts;
     Stats.byState := by_state;
     Stats.byStage := by_stage;
     Stats.executives := executives;
     Stats.verifiedNotContacted := verified_not_contacted;
     Stats.highQualityNotContacted := high_quality_not_contacted;
     Stats.avgQualityScore := avg_quality;
     Stats.breakdown := breakdown |}.

(** The sum of the values of a counting dictionary. *)
Definition sum_values (d : gmap string nat) : nat :=
  map_fold (λ _ n acc, n + acc) 0 d.

(** ** Relevance ranker *)

Definition terms : list string :=
  ["fintech"; "payment"; "saas"; "travel"; "cfo"; "ceo"; "executive"; "colombia"; "mexico"].

(** [[term for term in terms if term in query_lower]] *)
Definition extract_keywords (query : string) : list string :=
  let query_lower := Py.lower query in
  List.filter (λ term, Py.contains term query_lower) terms.

(** [sep.join(l)] when the items may be [None]: joining a non-string raises
    [TypeError]. *)
Fixpoint join_values (sep : string) (l : list (option string)) : result string :=
  match l with
  | [] => Ok EmptyString
  | None :: _ => Raise TypeError
  | [Some x] => Ok x
  | Some x :: r =>
      let* rest := join_values sep r in
      Ok (x +:+ sep +:+ rest)
  end.

(** The lower-cased text of a contact.  [c.get('title', '')] finds the key
    and returns its value, which is [None] when the raw record had no title. *)
Definition contact_text (c : Contact) : result string :=
  let* text :=
    join_values " " [ title c; companyName c; industry c;
                      Some (Py.join " " (keywords c));
                      Some (Py.join " " (technologies c)) ] in
  Ok (Py.lower text).

(** The number of extracted keywords that occur in the text. *)
Definition keyword_score (keywords : list string) (text : string) : nat :=
  length (List.filter (λ keyword, Py.contains keyword text) keywords).

(** The scoring loop: contacts with a positive score, in source order. *)
Fixpoint score_contacts (keywords : list string) (contacts : list Contact)
  : result (list (Contact * nat)) :=
  match contacts with
  | [] => Ok []
  | c :: rest =>
      let* text := contact_text c in
      let score := keyword_score keywords text in
      let* scored := score_contacts keywords rest in
      Ok (if (0 <? score) then (c, score) :: scored else scored)
  end.

(** [list.sort(key=lambda x: x[1], reverse=True)] is stable: an entry is
    placed after the entries of higher score and before the later entries
    of the same or a lower score. *)
Fixpoint insert_by_score (x : Contact * nat) (l : list (Contact * nat))
  : list (Contact * nat) :=
  match l with
  | [] => [x]
  | y :: r => if (x.2 <? y.2) then y :: insert_by_score x r else x :: l
  end.

Definition sort_by_score (l : list (Contact * nat)) : list (Contact * nat) :=
  foldr insert_by_score [] l.

(** The three [continue] tests of the filtering loop, negated. *)
Definition passes_filters (min_quality_score : option Z) (is_executive : option bool)
    (country_filter : option string) (c : Contact) : bool :=
  negb (match min_quality_score with
        | Some m => negb (m =? 0)%Z && (qualityScore c <? m)%Z
        | None => false
        end)
  && negb (match is_executive with
           | Some e => negb (Bool.eqb (isExecutive c) e)
           | None => false
           end)
  && negb (Py.truthy_get country_filter && negb (bool_decide (country c = country_filter))).

Module SearchHit.
Record t : Type := mk {
  contact : Minimal.t;
  (** [score / len(keywords)], or the integer 0 without keywords *)
  relevanceScore : Q;
}.
End SearchHit.

Module SearchResult.
Record t : Type := mk {
  contacts : list SearchHit.t;
  totalMatched : nat;
  searchQuery : string;
  extractedKeywords : list string;
}.
End SearchResult.

Definition relevance (keywords : list string) (score : nat) : Q :=
  match keywords with
  | [] => 0
  | _ :: _ => Z.of_nat score # Pos.of_nat (length keywords)
  end.

(** One entry of the result list, from a scored contact. *)
Definition search_hit (keywords : list string) (p : Contact * nat) : SearchHit.t :=
  {| SearchHit.contact := minimal p.1;
     SearchHit.relevanceScore := relevance keywords p.2 |}.

(** [vector_search_contacts_tool] on the contacts loaded from the export. *)
Definition vector_search_contacts_tool (contacts : list Contact) (query : string)
    (top_k : Z) (min_quality_score : option Z) (is_executive : option bool)
    (country_filter : option string) : result SearchResult.t :=
  let keywords := extract_keywords query in
  let* scored_contacts := score_contacts keywords contacts in
  let scored_contacts := sort_by_score scored_contacts in
  let filtered :=
    List.filter (λ p, passes_filters min_quality_score is_executive country_filter p.1)
                scored_contacts in
  let filtered := slice_to filtered top_k in
  let results := search_hit keywords <$> filtered in
  Ok {| SearchResult.contacts := results;
        SearchResult.totalMatched := length results;
        SearchResult.searchQuery := query;
        SearchResult.extractedKeywords := keywords |}.

(** ** The quality score as the spec words it

    A table of independent checks, each with its weight; the score is the sum
    of the weights of the checks that pass. *)

Definition present (k : string) (record : RawRecord) : bool :=
  Py.truthy_get (record !! k).

Definition field_is (k v : string) (record : RawRecord) : bool :=
  bool_decide (record !! k = Some v).

Definition quality_checks : list ((RawRecord → bool) * Z) :=
  [ (present "First Name", 5%Z);
    (present "Last Name", 5%Z);
    (present "Email", 10%Z);
    (present "Title", 10%Z);
    (present "Company Name", 10%Z);
    (present "Person Linkedin Url", 10%Z);
    ((λ r, present "Mobile Phone" r || present "Work Direct Phone" r), 10%Z);
    (present "Keywords", 5%Z);
    (present "Technologies", 5%Z);
    (present "Industry", 5%Z);
    (present "# Employees", 5%Z);
    (field_is "Email Status" "Verified", 10%Z);
    (field_is "Primary Email Catch-all Status" "Not Catch-all", 10%Z) ].

Definition weighted_sum (checks : list ((RawRecord → bool) * Z)) (record : RawRecord) : Z :=
  foldr (λ (check : (RawRecord → bool) * Z) acc,
           ((if check.1 record then check.2 else 0) + acc)%Z) 0%Z checks.

(** The columns scored on presence alone, with their weights. *)
Definition presence_weights : list (string * Z) :=
  [ ("First Name", 5%Z); ("Last Name", 5%Z); ("Email", 10%Z); ("Title", 10%Z);
    ("Company Name", 10%Z); ("Person Linkedin Url", 10%Z); ("Keywords", 5%Z);
    ("Technologies", 5%Z); ("Industry", 5%Z); ("# Employees", 5%Z) ].

(** None of the five interaction flags is set. *)
Definition no_interaction (record : RawRecord) : Prop :=
  flag record "Replied" = false ∧ flag record "Demoed" = false ∧
  flag record "Email Bounced" = false ∧ flag record "Email Open" = false ∧
  flag record "Email Sent" = false.

(** ** The filter engine as the spec words it

    Every filter is a test on one contact, the tests are combined with
    "and", and a contact that fails one test is not shown to the later
    clauses. *)

Definition str_filter_ok (v s : option string) : bool :=
  if Py.truthy_get s then bool_decide (v = s) else true.

(** The five typed filters, AND-combined. *)
Definition passes_typed (f : Filters) (c : Contact) : bool :=
  match min_quality_score f with
  | Some m => (m <=? qualityScore c)%Z
  | None => true
  end
  && match is_executive f with
     | Some e => Bool.eqb (isExecutive c) e
     | None => true
     end
  && str_filter_ok (country c) (country_filter f)
  && str_filter_ok (industry c) (industry_filter f)
  && str_filter_ok (Some (contactState c)) (contact_state f).

(** What one generic clause asks of one contact; a clause with an unknown
    operator, or without a field name, asks nothing. *)
Definition clause_test (clause : Clause) (c : Contact) : result bool :=
  match clause_field clause with
  | Some f =>
      if negb (Py.truthy_str f) then Ok true
      else if bool_decide (clause_operator clause = Some "contains") then
        contains_test f (clause_value clause) c
      else if bool_decide (clause_operator clause = Some "equals") then
        Ok (equals_test f (clause_value clause) c)
      else if bool_decide (clause_operator clause = Some "gte") then
        gte_test f (clause_value clause) c
      else Ok true
  | None => Ok true
  end.

(** The clauses in list order, stopping at the first one the contact fails. *)
Fixpoint passes_clauses (clauses : list Clause) (c : Contact) : result bool :=
  match clauses with
  | [] => Ok true
  | clause :: rest =>
      let* b := clause_test clause c in
      if b then passes_clauses rest c else Ok false
  end.

(** The contact is in the filtered sequence. *)
Definition selected (f : Filters) (clauses : list Clause) (c : Contact) : Prop :=
  passes_typed f c = true ∧ passes_clauses clauses c = Ok true.

(** The operators the filter engine knows. *)
Definition known_operator (operator : option string) : Prop :=
  operator = Some "contains" ∨ operator = Some "equals" ∨ operator = Some "gte".

(** [where_clauses or []] *)
Definition clause_list (where_clauses : option (list Clause)) : list Clause :=
  default [] where_clauses.

(** ** Sample data *)

(** Three rows of an export: two fintech contacts and one in travel. *)
Definition sample_rows : list RawRecord :=
  [ {[ "Apollo Contact Id" := "a1"; "First Name" := "Ada"; "Email" := "ada@pay.example";
       "Title" := "CEO"; "Company Name" := "PayCo"; "Industry" := "Fintech";
       "Country" := "Colombia"; "Keywords" := "payment, fintech"; "# Employees" := "40" ]};
    {[ "Apollo Contact Id" := "b2"; "First Name" := "Bo"; "Email" := "bo@bank.example";
       "Title" := "Analyst"; "Seniority" := "Manager"; "Company Name" := "Bankly";
       "Industry" := "Fintech"; "Country" := "Mexico"; "Replied" := "true" ]};
    {[ "Apollo Contact Id" := "c3"; "First Name" := "Cy"; "Title" := "CFO";
       "Company Name" := "TripCo"; "Industry" := "Travel"; "Country" := "Mexico";
       "Keywords" := "travel, saas, payment"; "# Employees" := "700" ]} ].

(** The contacts loaded from [sample_rows]. *)
Definition sample_contacts : list Contact :=
  match load_contacts sample_rows with
  | Ok contacts => contacts
  | Raise _ => []
  end.

Definition no_filters : Filters :=
  {| min_quality_score := None; is_executive := None; country_filter := None;
     industry_filter := None; contact_state := None |}.

(** ** Ranking vocabulary for the statements *)

(** The three optional text fields of the contact hold strings. *)
Definition has_text (c : Contact) : Prop :=
  is_Some (title c) ∧ is_Some (companyName c) ∧ is_Some (industry c).

(** Scores do not increase along the list. *)
Definition descending (l : list (Contact * nat)) : Prop :=
  StronglySorted (λ a b : Contact * nat, b.2 ≤ a.2) l.

(** Relevance scores do not increase along the result list. *)
Definition ranked (l : list SearchHit.t) : Prop :=
  StronglySorted
    (λ a b : SearchHit.t, (SearchHit.relevanceScore b <= SearchHit.relevanceScore a)%Q) l.

(** ** CORS origins ([app/core/config.py])

    [Settings.cors_origins_list]:
    [[origin.strip() for origin in self.cors_origins.split(",")]]. *)

Definition cors_origins_default : string :=
  "http://localhost:3000,http://localhost:3001".

Definition cors_origins_list (cors_origins : string) : list string :=
  Py.strip <$> Py.split "," cors_origins.

(** ** Chat messages ([app/routes/chat.py]) *)

(** [ChatMessage] of [app/schemas/messages.py]. *)
Record ChatMessage : Type := mkChatMessage {
  role : string;
  content : string;
}.

(** The three LangChain message classes the conversion builds. *)
Inductive LcMessage : Type :=
  | HumanMessage (content : string)
  | AIMessage (content : string)
  | SystemMessage (content : string).

(** [convert_to_langchain_messages]: the loop appends to [lc_messages]; a
    message whose role matches no branch is skipped. *)
Definition convert_to_langchain_messages (messages : list ChatMessage) : list LcMessage :=
  foldl (λ lc_messages msg,
           if bool_decide (role msg = "user") then
             lc_messages ++ [HumanMessage (content msg)]
           else if bool_decide (role msg = "assistant") then
             lc_messages ++ [AIMessage (content msg)]
           else if bool_decide (role msg = "system") then
             lc_messages ++ [SystemMessage (content msg)]
           else lc_messages)
        [] messages.

(** The role a LangChain message was built from. *)
Definition lc_role (m : LcMessage) : string :=
  match m with
  | HumanMessage _ => "user"
  | AIMessage _ => "assistant"
  | SystemMessage _ => "system"
  end.

Definition lc_content (m : LcMessage) : string :=
  match m with
  | HumanMessage c | AIMessage c | SystemMessage c => c
  end.

(** ** Composio tool cache ([app/mcp/composio_client.py])

    The module keeps the loaded tools in the global [_cached_tools].  A call
    is modelled on the value of that global, the value of the environment
    variable COMPOSIO_MCP_SSE_URL and the outcome of connecting to the
    server ([None] when the connection or the load raises); it returns the
    tools and the new value of the global. *)

Section Composio.
Context {Tool : Type}.

Definition get_composio_tools (cached_tools : option (list Tool))
    (sse_url : option string) (load_mcp_tools : string → option (list Tool))
  : list Tool * option (list Tool) :=
  match cached_tools with
  | Some tools => (tools, cached_tools)
  | None =>
      if Py.truthy_get sse_url then
        match sse_url with
        | Some url =>
            match load_mcp_tools url with
            | Some tools => (tools, Some tools)
            | None => ([], None)
            end
        | None => ([], None)
        end
      else ([], None)
  end.


(** A run of calls to [get_composio_tools], each with the environment and
    the server as they are at that moment; the tools each call returned
    and the final cache. *)
Fixpoint get_composio_tools_run (cached_tools : option (list Tool))
    (calls : list (option string * (string → option (list Tool))))
  : list (list Tool) * option (list Tool) :=
  match calls with
  | [] => ([], cached_tools)
  | (sse_url, load_mcp_tools) :: rest =>
      let '(tools, cached_tools) := get_composio_tools cached_tools sse_url load_mcp_tools in
      let '(results, cached_tools) := get_composio_tools_run cached_tools rest in
      (tools :: results, cached_tools)
  end.
End Composio.

(** ** Further vocabulary for the statements *)

(** The eight values of [contactState]. *)
Definition contact_states : list string :=
  [ "REPLIED"; "DEMOED"; "BOUNCED"; "OPENED"; "SENT";
    "INTERESTED_NOT_CONTACTED"; "NOT_CONTACTED"; "INCOMPLETE" ].

(** No leading and no trailing whitespace. *)
Definition stripped (s : string) : Prop := Py.lstrip s = s ∧ Py.rstrip s = s.

(** The characters of a string. *)
Definition chars (s : string) : list ascii := list_ascii_of_string s.

(** [needle] occurs in [hay] at some position. *)
Definition occurs_in (needle hay : string) : Prop :=
  ∃ before after : string, hay = before +:+ needle +:+ after.

(** [field in c and c[field]]: the contact has the field and its value is
    truthy. *)
Definition field_truthy (field : string) (c : Contact) : bool :=
  match contact_get c field with
  | Some v => py_truthy v
  | None => false
  end.

(** The generic clauses that ask what the typed filters ask. *)
Definition filters_as_clauses (f : Filters) : list Clause :=
  match min_quality_score f with
  | Some m => [mkClause (Some "qualityScore") (Some "gte") (VInt m)]
  | None => []
  end
  ++ match is_executive f with
     | Some e => [mkClause (Some "isExecutive") (Some "equals") (VBool e)]
     | None => []
     end
  ++ (if Py.truthy_get (country_filter f)
      then [mkClause (Some "country") (Some "equals") (opt_str (country_filter f))]
      else [])
  ++ (if Py.truthy_get (industry_filter f)
      then [mkClause (Some "industry") (Some "equals") (opt_str (industry_filter f))]
      else [])
  ++ (if Py.truthy_get (contact_state f)
      then [mkClause (Some "contactState") (Some "equals") (opt_str (contact_state f))]
      else []).

(** * Properties *)

(** ** Python primitives on examples *)

Example int_examples :
  Py.int "42" = Ok 42%Z ∧ Py.int " -1_000 " = Ok (-1000)%Z ∧ Py.int "0" = Ok 0%Z ∧
  Py.int "" = Raise ValueError ∧ Py.int "N/A" = Raise ValueError ∧
  Py.int "1__0" = Raise ValueError ∧ Py.int "12_" = Raise ValueError ∧
  Py.int "1,200" = Raise ValueError.
Proof. repeat split; reflexivity. Qed.

Example parse_list_example :
  parse_list " aws, gcp ,, azure ," = ["aws"; "gcp"; "azure"].
Proof. reflexivity. Qed.

Example str_examples :
  py_str (VInt (-12)) = "-12" ∧ py_str VNone = "None" ∧ py_str (VBool true) = "True" ∧
  py_str (VList ["a"; "b'c"]) = String "[" (String "'" (String "a" (String "'"
    (String "," (String " " (String double_quote (String "b" (String "'" (String "c"
    (String double_quote "]")))))))))).
Proof. repeat split; vm_compute; reflexivity. Qed.

(** ** Record normaliser *)

Lemma add_if (b : bool) (s w : Z) :
  (if b then (s + w)%Z else s) = (s + (if b then w else 0))%Z.
Proof. destruct b; lia. Qed.

Lemma quality_score_weighted_sum (record : RawRecord) :
  calculate_quality_score record = weighted_sum quality_checks record.
Proof.
  unfold calculate_quality_score, weighted_sum, quality_checks, present, field_is.
  cbv zeta. rewrite !add_if. simpl. ring.
Qed.

Lemma weighted_sum_bounds (checks : list ((RawRecord → bool) * Z)) (record : RawRecord) :
  Forall (λ check, (0 ≤ check.2)%Z) checks →
  (0 ≤ weighted_sum checks record ≤ foldr Z.add 0 (snd <$> checks))%Z.
Proof.
  unfold weighted_sum.
  induction 1 as [|[check w] checks Hw _ IH]; [simpl; lia|].
  rewrite fmap_cons. simpl in *.
  destruct (check record); lia.
Qed.

Lemma quality_score_range (record : RawRecord) :
  (0 ≤ calculate_quality_score record ≤ 100)%Z.
Proof.
  rewrite quality_score_weighted_sum.
  pose proof (weighted_sum_bounds quality_checks record) as H.
  simpl in H. apply H. repeat constructor; simpl; lia.
Qed.

Lemma transform_inv (record : RawRecord) (c : Contact) :
  transform_apollo_to_contact record = Ok c →
  qualityScore c = calculate_quality_score record ∧
  contactState c = determine_contact_state record ∧
  isExecutive c = is_executive_contact record ∧
  Py.int (str_or (Py.get_default record "# Employees" "0") "0") = Ok (companySize c) ∧
  companySizeBucket c = size_bucket (companySize c).
Proof.
  unfold transform_apollo_to_contact.
  destruct (Py.int _) as [n|e]; simpl; [|discriminate].
  intros [= <-]. simpl. auto.
Qed.

(** C4: the quality score of every raw record lies in [0,100], is the sum of
    the weights of thirteen independent checks (weights adding up to 100),
    is the score stored in the contact built from the record, and depends
    only on the record's fields: records that agree on every column get the
    same score. *)
Theorem quality_score_bounded_additive_deterministic (record : RawRecord) :
  (0 ≤ calculate_quality_score record ≤ 100)%Z
  ∧ calculate_quality_score record = weighted_sum quality_checks record
  ∧ foldr Z.add 0%Z (snd <$> quality_checks) = 100%Z
  ∧ (∀ c, transform_apollo_to_contact record = Ok c →
          qualityScore c = calculate_quality_score record ∧ (0 ≤ qualityScore c ≤ 100)%Z)
  ∧ (∀ record' : RawRecord, (∀ k, record' !! k = record !! k) →
          calculate_quality_score record' = calculate_quality_score record).
Proof.
  split; [apply quality_score_range|].
  split; [apply quality_score_weighted_sum|].
  split; [reflexivity|].
  split.
  - intros c Hc. apply transform_inv in Hc as [-> _].
    split; [reflexivity | apply quality_score_range].
  - intros record' Hk. f_equal. by apply map_eq.
Qed.

(** *** Presence in the quality score *)

Lemma truthy_get_nonempty (v : string) : v ≠ "" → Py.truthy_get (Some v) = true.
Proof. by destruct v. Qed.

Lemma truthy_insert_empty (record : RawRecord) (k j : string) :
  Py.truthy_get (<[k := ""]> record !! j) = Py.truthy_get (delete k record !! j).
Proof.
  destruct (decide (k = j)) as [->|Hne].
  - by rewrite lookup_insert_eq, lookup_delete_eq.
  - by rewrite lookup_insert_ne, lookup_delete_ne.
Qed.

Lemma is_insert_empty (record : RawRecord) (k j v : string) :
  v ≠ "" →
  bool_decide (<[k := ""]> record !! j = Some v) = bool_decide (delete k record !! j = Some v).
Proof.
  intros Hv. destruct (decide (k = j)) as [->|Hne].
  - rewrite lookup_insert_eq, lookup_delete_eq.
    rewrite !bool_decide_eq_false_2; [done|discriminate|congruence].
  - by rewrite lookup_insert_ne, lookup_delete_ne.
Qed.

Lemma quality_score_empty_is_absent (record : RawRecord) (k : string) :
  calculate_quality_score (<[k := ""]> record) = calculate_quality_score (delete k record).
Proof.
  rewrite !quality_score_weighted_sum.
  unfold weighted_sum, quality_checks, present, field_is. cbn [foldr fst snd].
  rewrite !truthy_insert_empty.
  rewrite !is_insert_empty by discriminate.
  reflexivity.
Qed.

Ltac simpl_lookups :=
  rewrite ?lookup_insert_eq, ?lookup_delete_eq;
  rewrite ?lookup_insert_ne, ?lookup_delete_ne by discriminate.

Lemma quality_score_present (record : RawRecord) (k v : string) (w : Z) :
  (k, w) ∈ presence_weights → v ≠ "" →
  calculate_quality_score (<[k := v]> record)
  = (calculate_quality_score (delete k record) + w)%Z.
Proof.
  intros Hk Hv. apply truthy_get_nonempty in Hv.
  rewrite !quality_score_weighted_sum.
  unfold weighted_sum, quality_checks, present, field_is. cbn [foldr fst snd].
  unfold presence_weights in Hk.
  repeat (apply elem_of_cons in Hk as [[= -> ->]|Hk];
          [simpl_lookups; rewrite Hv; change (Py.truthy_get None) with false;
           cbv iota; ring|]).
  by apply elem_of_nil in Hk.
Qed.

(** C3 as amended: a raw field counts as present exactly when its value is a
    non-empty string.  An empty string contributes nothing (the record
    scores as if the column were absent), and every non-empty value of a
    column scored on presence, whitespace-only values included, contributes
    the column's weight. *)
Theorem quality_score_presence_is_nonempty (record : RawRecord) (k : string) :
  calculate_quality_score (<[k := ""]> record) = calculate_quality_score (delete k record)
  ∧ (∀ (v : string) (w : Z), (k, w) ∈ presence_weights → v ≠ "" →
       calculate_quality_score (<[k := v]> record)
       = (calculate_quality_score (delete k record) + w)%Z).
Proof.
  split.
  - apply quality_score_empty_is_absent.
  - intros v w. apply quality_score_present.
Qed.

(** C3 as stated fails: a first name made of one space is whitespace only,
    yet it earns the 5 points of a present first name. *)
Lemma whitespace_only_field_scores :
  Py.strip " " = ""
  ∧ calculate_quality_score {[ "First Name" := " " ]} = 5%Z
  ∧ calculate_quality_score (delete "First Name" {[ "First Name" := " " ]}) = 0%Z.
Proof. repeat split; vm_compute; reflexivity. Qed.

(** ** Contact state *)

Lemma flag_true_iff (record : RawRecord) (k : string) :
  flag record k = true ↔ record !! k = Some "true" ∨ record !! k = Some "True".
Proof.
  unfold flag. destruct (record !! k) as [v|].
  - rewrite orb_true_iff, !bool_decide_eq_true.
    split; (intros [?|?]; [left|right]; congruence).
  - split; [discriminate | intros [?|?]; discriminate].
Qed.

(** C2: the contact state is the first match in the order REPLIED, DEMOED,
    BOUNCED, OPENED, SENT, then the email-based classes, then INCOMPLETE.
    A set replied flag gives REPLIED whatever the other columns hold (also
    with the bounced flag set); with no flag set and no email the state is
    INCOMPLETE, and a record without email is never classified by its stage:
    the record holding only Stage = "Interested" is INCOMPLETE. *)
Theorem contact_state_first_match (record : RawRecord) :
  (flag record "Replied" = true → determine_contact_state record = "REPLIED")
  ∧ (flag record "Replied" = false → flag record "Demoed" = true →
       determine_contact_state record = "DEMOED")
  ∧ (flag record "Replied" = false → flag record "Demoed" = false →
     flag record "Email Bounced" = true →
       determine_contact_state record = "BOUNCED")
  ∧ (flag record "Replied" = false → flag record "Demoed" = false →
     flag record "Email Bounced" = false → flag record "Email Open" = true →
       determine_contact_state record = "OPENED")
  ∧ (flag record "Replied" = false → flag record "Demoed" = false →
     flag record "Email Bounced" = false → flag record "Email Open" = false →
     flag record "Email Sent" = true →
       determine_contact_state record = "SENT")
  ∧ (no_interaction record → Py.truthy_get (record !! "Email") = true →
       determine_contact_state record =
         if bool_decide (Py.get_default record "Stage" "" = "Interested")
         then "INTERESTED_NOT_CONTACTED" else "NOT_CONTACTED")
  ∧ (no_interaction record → Py.truthy_get (record !! "Email") = false →
       determine_contact_state record = "INCOMPLETE")
  ∧ (Py.truthy_get (record !! "Email") = false →
       determine_contact_state record ≠ "INTERESTED_NOT_CONTACTED"
       ∧ determine_contact_state record ≠ "NOT_CONTACTED")
  ∧ (flag record "Replied" = true → flag record "Email Bounced" = true →
       determine_contact_state record = "REPLIED")
  ∧ determine_contact_state {[ "Replied" := "true"; "Email Bounced" := "true" ]} = "REPLIED"
  ∧ determine_contact_state {[ "Stage" := "Interested" ]} = "INCOMPLETE".
Proof.
  unfold determine_contact_state, no_interaction. cbv zeta.
  repeat apply conj.
  - by intros ->.
  - by intros -> ->.
  - by intros -> -> ->.
  - by intros -> -> -> ->.
  - by intros -> -> -> -> ->.
  - by intros (-> & -> & -> & -> & ->) ->.
  - by intros (-> & -> & -> & -> & ->) ->.
  - intros ->. split; repeat case_match; discriminate.
  - by intros -> _.
  - vm_compute; reflexivity.
  - vm_compute; reflexivity.
Qed.

(** ** Company size *)

(** C5: the size bucket is a function of the employee count whose five
    classes are the consecutive ranges up to 10, 11 to 50, 51 to 200, 201 to
    500 and above 500, so every count is in exactly one of them; 10, 50, 200
    and 500 fall in the lower bucket and 11, 51, 201 and 501 in the next;
    the contact built from a record carries the bucket of its size. *)
Theorem size_bucket_partition (n : Z) :
  (size_bucket n = "1-10 (Micro)" ↔ (n ≤ 10)%Z)
  ∧ (size_bucket n = "11-50 (Small)" ↔ (11 ≤ n ≤ 50)%Z)
  ∧ (size_bucket n = "51-200 (Medium)" ↔ (51 ≤ n ≤ 200)%Z)
  ∧ (size_bucket n = "201-500 (Large)" ↔ (201 ≤ n ≤ 500)%Z)
  ∧ (size_bucket n = "500+ (Enterprise)" ↔ (501 ≤ n)%Z)
  ∧ (size_bucket 0 = "1-10 (Micro)" ∧ size_bucket 10 = "1-10 (Micro)"
     ∧ size_bucket 11 = "11-50 (Small)" ∧ size_bucket 50 = "11-50 (Small)"
     ∧ size_bucket 51 = "51-200 (Medium)" ∧ size_bucket 200 = "51-200 (Medium)"
     ∧ size_bucket 201 = "201-500 (Large)" ∧ size_bucket 500 = "201-500 (Large)"
     ∧ size_bucket 501 = "500+ (Enterprise)")
  ∧ (∀ record c, transform_apollo_to_contact record = Ok c →
       companySizeBucket c = size_bucket (companySize c)).
Proof.
  unfold size_bucket.
  split_and!; try reflexivity.
  1-5: repeat case_match;
       repeat match goal with
       | H : (_ <=? _)%Z = true |- _ => apply Z.leb_le in H
       | H : (_ <=? _)%Z = false |- _ => apply Z.leb_gt in H
       end; (split; [intros ?; first [lia | discriminate] | intros ?; first [reflexivity | lia]]).
  intros record c Hc. by apply transform_inv in Hc as (_ & _ & _ & _ & ->).
Qed.

Example size_bucket_of_rows :
  (let* cs := load_contacts
     [ {[ "# Employees" := "10" ]}; {[ "# Employees" := "11" ]};
       {[ "# Employees" := "500" ]}; {[ "# Employees" := "501" ]}; ∅;
       {[ "# Employees" := "" ]} ] in
   Ok (companySizeBucket <$> cs))
  = Ok [ "1-10 (Micro)"; "11-50 (Small)"; "201-500 (Large)"; "500+ (Enterprise)";
         "1-10 (Micro)"; "1-10 (Micro)" ].
Proof. vm_compute; reflexivity. Qed.

(** ** Totality of the normaliser *)

(** The only step of the normaliser that can raise is the conversion of the
    employee count. *)
Lemma transform_ok_iff (record : RawRecord) :
  is_ok (transform_apollo_to_contact record)
  = is_ok (Py.int (str_or (Py.get_default record "# Employees" "0") "0")).
Proof.
  unfold transform_apollo_to_contact.
  by destruct (Py.int _).
Qed.

(** An absent or empty employee count is read as 0. *)
Lemma transform_default_size (record : RawRecord) :
  record !! "# Employees" = None ∨ record !! "# Employees" = Some "" →
  ∃ c, transform_apollo_to_contact record = Ok c ∧ companySize c = 0%Z
       ∧ companySizeBucket c = "1-10 (Micro)".
Proof.
  intros H. unfold transform_apollo_to_contact, Py.get_default.
  destruct H as [-> | ->]; (eexists; split; [reflexivity | split; reflexivity]).
Qed.

Lemma transform_default_size_witness :
  ∃ c, transform_apollo_to_contact ∅ = Ok c ∧ companySize c = 0%Z
       ∧ companySizeBucket c = "1-10 (Micro)".
Proof. apply transform_default_size. left. reflexivity. Defined.

(** C1: the normaliser is not total.  On a record whose employee count is
    the non-empty, non-numeric string "N/A" the conversion [int('N/A')]
    raises ValueError and no contact is built; the size does not default to
    0.  The same happens when such a row is loaded with others. *)
Theorem transform_unparseable_employees_raises :
  transform_apollo_to_contact {[ "# Employees" := "N/A" ]} = Raise ValueError
  ∧ load_contacts [ ∅; {[ "# Employees" := "N/A" ]} ] = Raise ValueError.
Proof. split; vm_compute; reflexivity. Qed.

(** ** Filter engine *)

Lemma rbind_ok {A B : Type} (m : result A) (k : A → result B) (b : B) :
  rbind m k = Ok b ↔ ∃ a, m = Ok a ∧ k a = Ok b.
Proof.
  destruct m as [a|e]; simpl.
  - split; [eauto | by intros (? & [= <-] & ?)].
  - split; [discriminate | by intros (? & ? & ?)].
Qed.

(** A comprehension returns when every test it runs returns, and then
    keeps the elements whose test is true, in order. *)
Lemma filter_r_ok {A : Type} (p : A → result bool) (l out : list A) :
  filter_r p l = Ok out →
  out = filter (λ x, p x = Ok true) l ∧ Forall (λ x, is_ok (p x) = true) l.
Proof.
  revert out. induction l as [|x l IH]; simpl; intros out.
  - intros [= <-]. by split.
  - rewrite rbind_ok. intros (b & Hb & H).
    apply rbind_ok in H as (r' & Hr' & [= <-]).
    destruct (IH _ Hr') as [-> Hall].
    split; [|constructor; [by rewrite Hb|done]].
    destruct b.
    + by rewrite filter_cons_True.
    + rewrite filter_cons_False; [done|]. rewrite Hb. discriminate.
Qed.

Lemma filter_r_total {A : Type} (p : A → result bool) (l : list A) :
  Forall (λ x, is_ok (p x) = true) l → is_ok (filter_r p l) = true.
Proof.
  induction 1 as [|x l Hx _ IH]; simpl; [done|].
  destruct (p x) as [b|]; [simpl|done].
  by destruct (filter_r p l).
Qed.

Lemma filter_r_raise {A : Type} (p : A → result bool) (l : list A) (e : exn) :
  filter_r p l = Raise e → ∃ x, x ∈ l ∧ p x = Raise e.
Proof.
  induction l as [|x l IH]; simpl; [discriminate|].
  destruct (p x) as [b|e'] eqn:Hx; simpl.
  - destruct (filter_r p l) as [r|e'']; simpl; [discriminate|].
    intros [= ->]. destruct IH as (y & Hy & Hp); [done|].
    exists y. split; [by right|done].
  - intros [= ->]. exists x. split; [by left|done].
Qed.

Lemma apply_clause_test (contacts : list Contact) (clause : Clause) :
  apply_clause contacts clause
  = match clause_field clause with
    | Some f =>
        if negb (Py.truthy_str f) then Ok contacts
        else if bool_decide (clause_operator clause = Some "contains") then
          filter_r (contains_test f (clause_value clause)) contacts
        else if bool_decide (clause_operator clause = Some "equals") then
          Ok (filter (λ c, equals_test f (clause_value clause) c = true) contacts)
        else if bool_decide (clause_operator clause = Some "gte") then
          filter_r (gte_test f (clause_value clause)) contacts
        else Ok contacts
    | None => Ok contacts
    end.
Proof.
  unfold apply_clause. destruct (clause_field clause) as [f|]; [|done].
  destruct (Py.truthy_str f); simpl; rewrite ?andb_true_r, ?andb_false_r; done.
Qed.

Lemma filter_true {A : Type} (P : A → Prop) `{∀ x, Decision (P x)} (l : list A) :
  (∀ x, P x) → filter P l = l.
Proof.
  intros HP. induction l as [|x l IH]; [done|].
  by rewrite filter_cons_True, IH.
Qed.

Lemma apply_clause_ok (contacts out : list Contact) (clause : Clause) :
  apply_clause contacts clause = Ok out →
  out = filter (λ c, clause_test clause c = Ok true) contacts.
Proof.
  rewrite apply_clause_test. unfold clause_test.
  destruct (clause_field clause) as [f|].
  2: { intros [= <-]. by rewrite filter_true. }
  destruct (negb (Py.truthy_str f)).
  { intros [= <-]. by rewrite filter_true. }
  repeat case_bool_decide; simpl.
  all: try (intros Hr; by apply filter_r_ok in Hr as [-> _]).
  all: try (intros [= <-]; by rewrite filter_true).
  all: intros [= <-]; apply list_filter_iff; intros c; split; [congruence|by intros [= ->]].
Qed.

Lemma passes_clauses_cons (clause : Clause) (rest : list Clause) (c : Contact) :
  passes_clauses (clause :: rest) c = Ok true
  ↔ clause_test clause c = Ok true ∧ passes_clauses rest c = Ok true.
Proof.
  simpl. destruct (clause_test clause c) as [[]|]; simpl; intuition congruence.
Qed.

Lemma apply_clauses_ok (clauses : list Clause) (contacts out : list Contact) :
  apply_clauses contacts clauses = Ok out →
  out = filter (λ c, passes_clauses clauses c = Ok true) contacts.
Proof.
  revert contacts. induction clauses as [|clause rest IH]; intros contacts.
  - simpl. intros [= <-]. by rewrite filter_true.
  - cbn [apply_clauses]. rewrite rbind_ok. intros (mid & Hmid & Hout).
    apply apply_clause_ok in Hmid as ->. apply IH in Hout as ->.
    rewrite list_filter_filter. apply list_filter_iff. intros c.
    rewrite passes_clauses_cons. tauto.
Qed.

Lemma filter_by_str_spec (get : Contact → option string) (s : option string)
    (l : list Contact) :
  filter_by_str get s l = filter (λ c, str_filter_ok (get c) s = true) l.
Proof.
  unfold filter_by_str, str_filter_ok. destruct (Py.truthy_get s).
  - apply list_filter_iff. intros c. by rewrite bool_decide_eq_true.
  - by rewrite filter_true.
Qed.

(** The filtering part of the query is the clause loop run on the contacts
    that pass the typed filters. *)
Lemma filter_contacts_typed (contacts : list Contact) (f : Filters)
    (where_clauses : option (list Clause)) :
  filter_contacts contacts f where_clauses
  = apply_clauses (filter (λ c, passes_typed f c = true) contacts)
                  (clause_list where_clauses).
Proof.
  unfold filter_contacts. cbv zeta.
  rewrite !filter_by_str_spec.
  assert (∀ l : list Contact,
    match min_quality_score f with
    | Some m => filter (λ c, (m ≤ qualityScore c)%Z) l
    | None => l
    end = filter (λ c, match min_quality_score f with
                       | Some m => (m <=? qualityScore c)%Z
                       | None => true
                       end = true) l) as ->.
  { intros l. destruct (min_quality_score f) as [m|].
    - apply list_filter_iff. intros c. by rewrite Z.leb_le.
    - by rewrite filter_true. }
  assert (∀ l : list Contact,
    match is_executive f with
    | Some e => filter (λ c, isExecutive c = e) l
    | None => l
    end = filter (λ c, match is_executive f with
                       | Some e => Bool.eqb (isExecutive c) e
                       | None => true
                       end = true) l) as ->.
  { intros l. destruct (is_executive f) as [e|].
    - apply list_filter_iff. intros c. by rewrite eqb_true_iff.
    - by rewrite filter_true. }
  rewrite !list_filter_filter.
  match goal with
  | |- context [filter ?P contacts] =>
      replace (filter P contacts) with (filter (λ c, passes_typed f c = true) contacts)
  end.
  - by destruct where_clauses as [[|clause rest]|].
  - apply list_filter_iff. intros c. unfold passes_typed.
    rewrite !andb_true_iff. tauto.
Qed.

(** Whenever the filtering returns, it returns the selected contacts in
    source order. *)
Lemma filter_contacts_selected (contacts filtered : list Contact) (f : Filters)
    (where_clauses : option (list Clause)) :
  filter_contacts contacts f where_clauses = Ok filtered →
  filtered = filter (selected f (clause_list where_clauses)) contacts.
Proof.
  rewrite filter_contacts_typed. intros H.
  apply apply_clauses_ok in H as ->.
  rewrite list_filter_filter. apply list_filter_iff. intros c.
  unfold selected. tauto.
Qed.

Lemma slice_to_nonneg {A : Type} (l : list A) (limit : Z) :
  (0 ≤ limit)%Z → slice_to l limit = take (Z.to_nat limit) l.
Proof. intros H. unfold slice_to. by rewrite (proj2 (Z.leb_le 0 limit) H). Qed.

Example sample_contacts_loaded :
  id <$> sample_contacts = ["a1"; "b2"; "c3"]
  ∧ qualityScore <$> sample_contacts = [50; 40; 40]%Z
  ∧ isExecutive <$> sample_contacts = [true; false; true]
  ∧ contactState <$> sample_contacts = ["NOT_CONTACTED"; "REPLIED"; "INCOMPLETE"]
  ∧ companySizeBucket <$> sample_contacts
    = ["11-50 (Small)"; "1-10 (Micro)"; "500+ (Enterprise)"].
Proof. repeat split; vm_compute; reflexivity. Qed.

(** C6: for a non-negative limit the outcome of the query is fixed by its
    filtering part.  When the filtering returns the sequence [filtered]
    (the selected contacts in source order), the query returns
    [total = len(filtered)] and as [contacts] the projection of the first
    [min(limit, total)] elements of [filtered], so [total >= len(contacts)];
    when the filtering raises, the query raises the same exception; without
    generic clauses it always returns. *)
Theorem query_total_and_prefix (contacts : list Contact)
    (where_clauses : option (list Clause)) (f : Filters) (limit : Z) :
  (0 ≤ limit)%Z →
  match filter_contacts contacts f where_clauses with
  | Ok filtered =>
      filtered = filter (selected f (clause_list where_clauses)) contacts
      ∧ ∃ r, query_contacts_tool contacts where_clauses f limit = Ok r
          ∧ QueryResult.total r = length filtered
          ∧ QueryResult.contacts r
            = minimal <$> take (Z.to_nat limit `min` QueryResult.total r) filtered
          ∧ length (QueryResult.contacts r) = Z.to_nat limit `min` QueryResult.total r
          ∧ QueryResult.returned r = length (QueryResult.contacts r)
          ∧ length (QueryResult.contacts r) ≤ QueryResult.total r
  | Raise e => query_contacts_tool contacts where_clauses f limit = Raise e
  end
  ∧ (clause_list where_clauses = [] →
     is_ok (query_contacts_tool contacts where_clauses f limit) = true).
Proof.
  intros Hlimit. split.
  - unfold query_contacts_tool.
    destruct (filter_contacts contacts f where_clauses) as [filtered|e] eqn:Hf;
      simpl; [|done].
    split; [by apply filter_contacts_selected|].
    eexists. split; [reflexivity|]. simpl.
    rewrite slice_to_nonneg by done.
    assert (take (Z.to_nat limit `min` length filtered) filtered
            = take (Z.to_nat limit) filtered) as ->.
    { destruct (Nat.min_spec (Z.to_nat limit) (length filtered)) as [[_ ->]|[Hle ->]];
        [done|]. by rewrite !take_ge by lia. }
    rewrite length_fmap, length_take. repeat split; lia.
  - intros Hnil. unfold query_contacts_tool.
    rewrite filter_contacts_typed, Hnil. reflexivity.
Qed.

Lemma query_total_and_prefix_witness :
  (0 ≤ 2)%Z ∧
  (match filter_contacts sample_contacts
           {| min_quality_score := Some 40%Z; is_executive := None;
              country_filter := None; industry_filter := None;
              contact_state := None |} None with
   | Ok filtered =>
       ∃ r, query_contacts_tool sample_contacts None
              {| min_quality_score := Some 40%Z; is_executive := None;
                 country_filter := None; industry_filter := None;
                 contact_state := None |} 2 = Ok r
            ∧ QueryResult.total r = length filtered
            ∧ length (QueryResult.contacts r) ≤ QueryResult.total r
   | Raise e => False
   end).
Proof.
  split; [lia|].
  pose proof (query_total_and_prefix sample_contacts None
    {| min_quality_score := Some 40%Z; is_executive := None;
       country_filter := None; industry_filter := None;
       contact_state := None |} 2 ltac:(lia)) as [H _].
  destruct (filter_contacts _ _ _) as [filtered|e] eqn:Hf.
  - destruct H as (_ & r & Hr & Ht & _ & _ & _ & Hle). exists r. auto.
  - vm_compute in Hf. discriminate.
Defined.

Example query_sample_limit :
  (let* r := query_contacts_tool sample_contacts None
               {| min_quality_score := Some 40%Z; is_executive := None;
                  country_filter := None; industry_filter := None;
                  contact_state := None |} 2 in
   Ok (QueryResult.total r, Minimal.id <$> QueryResult.contacts r, QueryResult.returned r))
  = Ok (3, ["a1"; "b2"], 2).
Proof. vm_compute; reflexivity. Qed.

(** *** Clauses with an unknown operator *)

Lemma apply_clause_unknown (contacts : list Contact) (clause : Clause) :
  ¬ known_operator (clause_operator clause) → apply_clause contacts clause = Ok contacts.
Proof.
  intros Hop. rewrite apply_clause_test.
  destruct (clause_field clause) as [f|]; [|done].
  destruct (negb (Py.truthy_str f)); [done|].
  unfold known_operator in Hop.
  repeat case_bool_decide; tauto.
Qed.

Lemma apply_clauses_app (contacts : list Contact) (before after : list Clause) :
  apply_clauses contacts (before ++ after)
  = let* mid := apply_clauses contacts before in apply_clauses mid after.
Proof.
  revert contacts. induction before as [|clause before IH]; intros contacts; [done|].
  simpl. destruct (apply_clause contacts clause) as [mid|e]; simpl; [apply IH|done].
Qed.

Lemma apply_clauses_skip_unknown (contacts : list Contact) (before after : list Clause)
    (clause : Clause) :
  ¬ known_operator (clause_operator clause) →
  apply_clauses contacts (before ++ clause :: after)
  = apply_clauses contacts (before ++ after).
Proof.
  intros Hop. rewrite !apply_clauses_app.
  destruct (apply_clauses contacts before) as [mid|e]; simpl; [|done].
  by rewrite apply_clause_unknown.
Qed.

(** C7: a generic clause whose operator is none of contains, equals, gte is
    a no-op.  Applied to any contact list it returns that list unchanged and
    raises nothing, and inserting it anywhere in the clause list leaves the
    whole outcome of the query (matched contacts, total, or the exception
    raised by another clause) unchanged. *)
Theorem unknown_operator_clause_ignored (contacts : list Contact)
    (before after : list Clause) (clause : Clause) (f : Filters) (limit : Z) :
  ¬ known_operator (clause_operator clause) →
  (∀ l : list Contact, apply_clause l clause = Ok l)
  ∧ filter_contacts contacts f (Some (before ++ clause :: after))
    = filter_contacts contacts f (Some (before ++ after))
  ∧ query_contacts_tool contacts (Some (before ++ clause :: after)) f limit
    = query_contacts_tool contacts (Some (before ++ after)) f limit
  ∧ (before ++ after = [] →
     query_contacts_tool contacts (Some [clause]) f limit
     = query_contacts_tool contacts None f limit).
Proof.
  intros Hop.
  assert (filter_contacts contacts f (Some (before ++ clause :: after))
          = filter_contacts contacts f (Some (before ++ after))) as Heq.
  { rewrite !filter_contacts_typed. simpl. by apply apply_clauses_skip_unknown. }
  split_and!.
  - intros l. by apply apply_clause_unknown.
  - done.
  - unfold query_contacts_tool. by rewrite Heq.
  - intros _. unfold query_contacts_tool.
    rewrite !filter_contacts_typed. simpl. by rewrite apply_clause_unknown.
Qed.

Lemma unknown_operator_clause_ignored_witness :
  ¬ known_operator (Some "startswith")
  ∧ query_contacts_tool sample_contacts
      (Some ([ mkClause (Some "industry") (Some "equals") (VStr "Fintech") ]
             ++ mkClause (Some "title") (Some "startswith") (VStr "C")
             :: [ mkClause (Some "qualityScore") (Some "gte") (VInt 45) ]))
      no_filters 50
    = query_contacts_tool sample_contacts
      (Some ([ mkClause (Some "industry") (Some "equals") (VStr "Fintech") ]
             ++ [ mkClause (Some "qualityScore") (Some "gte") (VInt 45) ]))
      no_filters 50.
Proof.
  assert (¬ known_operator (Some "startswith")) as Hop.
  { unfold known_operator. intros [H|[H|H]]; discriminate H. }
  split; [exact Hop|].
  exact (proj1 (proj2 (proj2
    (unknown_operator_clause_ignored sample_contacts
       [ mkClause (Some "industry") (Some "equals") (VStr "Fintech") ]
       [ mkClause (Some "qualityScore") (Some "gte") (VInt 45) ]
       (mkClause (Some "title") (Some "startswith") (VStr "C"))
       no_filters 50 Hop)))).
Defined.

Example query_sample_clauses :
  (let* r := query_contacts_tool sample_contacts
      (Some [ mkClause (Some "industry") (Some "equals") (VStr "Fintech");
              mkClause (Some "title") (Some "startswith") (VStr "C");
              mkClause (Some "qualityScore") (Some "gte") (VInt 45) ])
      no_filters 50 in
   Ok (QueryResult.total r, Minimal.id <$> QueryResult.contacts r))
  = Ok (1, ["a1"])
  ∧ query_contacts_tool sample_contacts
      (Some [ mkClause (Some "keywords") (Some "contains") (VInt 1) ]) no_filters 50
    = Raise AttributeError
  ∧ query_contacts_tool sample_contacts
      (Some [ mkClause (Some "seniority") (Some "gte") (VInt 1) ]) no_filters 50
    = Raise TypeError
  ∧ (let* r := query_contacts_tool sample_contacts
      (Some [ mkClause (Some "keywords") (Some "contains") (VStr "SaaS") ]) no_filters 50 in
     Ok (Minimal.id <$> QueryResult.contacts r))
    = Ok ["c3"].
Proof. repeat split; vm_compute; reflexivity. Qed.

(** ** Stats aggregator *)

Lemma sum_values_empty : sum_values ∅ = 0.
Proof. apply map_fold_empty. Qed.

Lemma sum_values_insert (d : gmap string nat) (k : string) (n : nat) :
  d !! k = None → sum_values (<[k := n]> d) = n + sum_values d.
Proof.
  intros Hk. unfold sum_values.
  rewrite map_fold_insert_L; [done| |done].
  intros. lia.
Qed.

Lemma sum_values_delete (d : gmap string nat) (k : string) (n : nat) :
  d !! k = Some n → sum_values d = n + sum_values (delete k d).
Proof.
  intros Hk. unfold sum_values.
  rewrite (map_fold_delete_L _ _ k n d); [done| |done].
  intros. lia.
Qed.

(** Counting one more contact under a key adds one to the sum of the
    counters. *)
Lemma sum_values_count_key (d : gmap string nat) (k : string) :
  sum_values (count_key d k) = S (sum_values d).
Proof.
  unfold count_key. destruct (d !! k) as [n|] eqn:Hk; simpl.
  - rewrite <- insert_delete_eq.
    rewrite sum_values_insert by apply lookup_delete_eq.
    rewrite (sum_values_delete d k n Hk). lia.
  - by rewrite sum_values_insert.
Qed.

Lemma sum_values_foldl (key : Contact → string) (contacts : list Contact)
    (d : gmap string nat) :
  sum_values (foldl (λ d c, count_key d (key c)) d contacts)
  = sum_values d + length contacts.
Proof.
  revert d. induction contacts as [|c contacts IH]; intros d; simpl; [lia|].
  rewrite IH, sum_values_count_key. lia.
Qed.

Lemma sum_values_count_by (key : Contact → string) (contacts : list Contact) :
  sum_values (count_by key contacts) = length contacts.
Proof. unfold count_by. by rewrite sum_values_foldl, sum_values_empty. Qed.

(** The number of contacts filed under [k]. *)
Lemma count_key_lookup (d : gmap string nat) (k j : string) :
  count_key d k !! j = if decide (k = j) then Some (default 0 (d !! k) + 1) else d !! j.
Proof. unfold count_key. apply lookup_insert. Qed.

Lemma foldl_count_lookup (key : Contact → string) (contacts : list Contact)
    (d : gmap string nat) (k : string) :
  default 0 (foldl (λ d c, count_key d (key c)) d contacts !! k)
  = default 0 (d !! k) + length (filter (λ c, key c = k) contacts).
Proof.
  revert d. induction contacts as [|c contacts IH]; intros d; simpl; [lia|].
  rewrite IH, count_key_lookup.
  destruct (decide (key c = k)) as [<-|Hne].
  - rewrite filter_cons_True by done. simpl. lia.
  - by rewrite filter_cons_False.
Qed.

Lemma foldl_count_positive (key : Contact → string) (contacts : list Contact)
    (d : gmap string nat) (k : string) (n : nat) :
  (∀ j m, d !! j = Some m → 0 < m) →
  foldl (λ d c, count_key d (key c)) d contacts !! k = Some n → 0 < n.
Proof.
  revert d. induction contacts as [|c contacts IH]; intros d Hd; simpl; [by apply Hd|].
  apply IH. intros j m. rewrite count_key_lookup.
  destruct (decide (key c = j)); [intros [= <-]; lia | apply Hd].
Qed.

(** [count_by] files every contact under its key: a key has the number of
    contacts that carry it, and keys no contact carries are absent. *)
Lemma count_by_lookup (key : Contact → string) (contacts : list Contact) (k : string) :
  count_by key contacts !! k
  = match length (filter (λ c, key c = k) contacts) with
    | 0 => None
    | S n => Some (S n)
    end.
Proof.
  pose proof (foldl_count_lookup key contacts ∅ k) as Hn.
  pose proof (foldl_count_positive key contacts ∅ k) as Hpos.
  unfold count_by. rewrite lookup_empty in Hn. simpl in Hn.
  destruct (foldl _ _ _ !! k) as [n|] eqn:Hk; simpl in Hn.
  - rewrite <- Hn. specialize (Hpos n). destruct n; [|done].
    exfalso. apply (Nat.lt_irrefl 0), Hpos; [|done].
    intros j m. by rewrite lookup_empty.
  - by rewrite <- Hn.
Qed.

(** C8: for every contact set the counts by state add up to the number of
    contacts, which is the reported total, and each state's count is the
    number of contacts in that state.  On the empty set the aggregator
    returns (it is a total function) with total 0, no state counts and
    avgQualityScore the integer 0, the mean's division being skipped. *)
Theorem stats_by_state_sums_to_total (contacts : list Contact) (group_by : option string) :
  sum_values (Stats.byState (get_contact_stats_tool contacts group_by)) = length contacts
  ∧ Stats.total (get_contact_stats_tool contacts group_by) = length contacts
  ∧ (∀ state, default 0 (Stats.byState (get_contact_stats_tool contacts group_by) !! state)
              = length (filter (λ c, contactState c = state) contacts))
  ∧ Stats.avgQualityScore (get_contact_stats_tool [] group_by) = AvgInt 0
  ∧ Stats.total (get_contact_stats_tool [] group_by) = 0
  ∧ Stats.byState (get_contact_stats_tool [] group_by) = ∅
  ∧ (Stats.avgQualityScore (get_contact_stats_tool contacts group_by) = AvgInt 0
     ↔ contacts = []).
Proof.
  split_and!; try reflexivity.
  - apply sum_values_count_by.
  - intros state. simpl. rewrite count_by_lookup. by destruct (length _).
  - simpl. destruct contacts; split; done.
Qed.

Example stats_sample :
  Stats.byState (get_contact_stats_tool sample_contacts None)
  = {[ "NOT_CONTACTED" := 1; "REPLIED" := 1; "INCOMPLETE" := 1 ]}
  ∧ Stats.avgQualityScore (get_contact_stats_tool sample_contacts None) = AvgRound1 130 3
  ∧ Stats.executives (get_contact_stats_tool sample_contacts None) = 2
  ∧ Stats.breakdown (get_contact_stats_tool sample_contacts None) = None.
Proof. repeat split; vm_compute; reflexivity. Qed.

(** *** Breakdown by a field *)

(** The key a contact is filed under: the stringified value of the field
    when the contact dictionary has it, "Unknown" when it has not. *)
Lemma breakdown_key_spec (group_by : string) (c : Contact) :
  breakdown_key group_by c
  = match contact_get c group_by with
    | Some v => py_str v
    | None => "Unknown"
    end.
Proof. unfold breakdown_key, contact_get_default. by destruct (contact_get c group_by). Qed.

(** Every contact has the key [industry]; it holds [None] when the raw
    record had no Industry column, and [str(None)] is "None". *)
Lemma breakdown_key_industry (c : Contact) :
  breakdown_key "industry" c = default "None" (industry c).
Proof. rewrite breakdown_key_spec. cbn. by destruct (industry c). Qed.

(** With a non-empty [group_by] the breakdown holds, for every key, the
    number of contacts filed under it. *)
Lemma breakdown_counts (contacts : list Contact) (group_by : string) :
  group_by ≠ "" →
  ∃ d, Stats.breakdown (get_contact_stats_tool contacts (Some group_by)) = Some d
       ∧ sum_values d = length contacts
       ∧ ∀ k, default 0 (d !! k)
              = length (filter (λ c, breakdown_key group_by c = k) contacts).
Proof.
  intros Hg. exists (count_by (breakdown_key group_by) contacts).
  split_and!.
  - simpl. by destruct group_by.
  - apply sum_values_count_by.
  - intros k. rewrite count_by_lookup. by destruct (length _).
Qed.

Lemma breakdown_counts_witness :
  ∃ d, Stats.breakdown (get_contact_stats_tool sample_contacts (Some "industry")) = Some d
       ∧ sum_values d = length sample_contacts
       ∧ ∀ k, default 0 (d !! k)
              = length (filter (λ c, breakdown_key "industry" c = k) sample_contacts).
Proof. apply breakdown_counts. discriminate. Defined.

(** Without [group_by], or with an empty one, there is no breakdown. *)
Lemma breakdown_absent (contacts : list Contact) :
  Stats.breakdown (get_contact_stats_tool contacts None) = None
  ∧ Stats.breakdown (get_contact_stats_tool contacts (Some "")) = None.
Proof. by split. Qed.

(** The scenario of the spec: industries Fintech, Fintech, Travel. *)
Example breakdown_by_industry :
  industry <$> sample_contacts = [Some "Fintech"; Some "Fintech"; Some "Travel"]
  ∧ Stats.breakdown (get_contact_stats_tool sample_contacts (Some "industry"))
    = Some {[ "Fintech" := 2; "Travel" := 1 ]}
  ∧ Stats.breakdown (get_contact_stats_tool sample_contacts (Some "region"))
    = Some {[ "Unknown" := 3 ]}
  ∧ Stats.breakdown (get_contact_stats_tool sample_contacts (Some "isExecutive"))
    = Some {[ "True" := 2; "False" := 1 ]}.
Proof. repeat split; vm_compute; reflexivity. Qed.

(** C9: a missing value is not filed under "Unknown".  A contact built from
    a raw record without Industry has the key [industry] with value [None],
    so [c.get('industry', 'Unknown')] returns [None] and the breakdown by
    industry files the contact under "None"; the same holds for every
    optional field ([seniority] of the second sample contact). *)
Theorem breakdown_missing_value_is_None :
  (let* contacts := load_contacts [ {[ "First Name" := "Ada" ]};
                                    {[ "First Name" := "Bo"; "Industry" := "Travel" ]} ] in
   Ok (industry <$> contacts,
       Stats.breakdown (get_contact_stats_tool contacts (Some "industry"))))
  = Ok ([None; Some "Travel"], Some {[ "None" := 1; "Travel" := 1 ]})
  ∧ Stats.breakdown (get_contact_stats_tool sample_contacts (Some "seniority"))
    = Some {[ "None" := 2; "Manager" := 1 ]}.
Proof. split; vm_compute; reflexivity. Qed.

(** ** Relevance ranker *)

(** *** Scoring *)

Lemma keyword_score_le (keywords : list string) (text : string) :
  keyword_score keywords text ≤ length keywords.
Proof.
  unfold keyword_score. induction keywords as [|k keywords IH]; simpl; [done|].
  destruct (Py.contains k text); simpl; lia.
Qed.

Lemma contact_text_ok (c : Contact) :
  has_text c → is_ok (contact_text c) = true.
Proof.
  intros ([t Ht] & [n Hn] & [i Hi]). unfold contact_text.
  rewrite Ht, Hn, Hi. reflexivity.
Qed.

(** Joining a [None] raises: a contact without title, company name or
    industry has no text. *)
Lemma contact_text_raises (c : Contact) :
  ¬ has_text c → contact_text c = Raise TypeError.
Proof.
  intros H. unfold contact_text, has_text in *.
  destruct (title c) as [t|]; [|done].
  destruct (companyName c) as [n|]; [|done].
  destruct (industry c) as [i|]; [|done].
  exfalso. apply H. eauto.
Qed.

Lemma score_contacts_inv (keywords : list string) (contacts : list Contact)
    (scored : list (Contact * nat)) :
  score_contacts keywords contacts = Ok scored →
  Forall (λ p : Contact * nat, 0 < p.2 ≤ length keywords) scored
  ∧ scored.*1 `sublist_of` contacts
  ∧ Forall has_text contacts.
Proof.
  revert scored. induction contacts as [|c contacts IH]; simpl; intros scored.
  - intros [= <-]. by repeat constructor.
  - rewrite rbind_ok. intros (text & Htext & H).
    apply rbind_ok in H as (rest & Hrest & [= <-]).
    destruct (IH _ Hrest) as (Hall & Hsub & Htxt).
    assert (has_text c) as Hc.
    { destruct (decide (has_text c)) as [|Hn]; [done|].
      apply contact_text_raises in Hn. congruence. }
    destruct (0 <? keyword_score keywords text) eqn:Hpos.
    + apply Nat.ltb_lt in Hpos. split_and!.
      * constructor; [|done]. simpl. split; [done|apply keyword_score_le].
      * simpl. by apply sublist_skip.
      * by constructor.
    + split_and!; [done|by apply sublist_cons|by constructor].
Qed.

Lemma score_contacts_total (keywords : list string) (contacts : list Contact) :
  Forall has_text contacts → is_ok (score_contacts keywords contacts) = true.
Proof.
  induction 1 as [|c contacts Hc _ IH]; simpl; [done|].
  apply contact_text_ok in Hc. destruct (contact_text c) as [text|]; [simpl|done].
  by destruct (score_contacts keywords contacts).
Qed.

(** The scoring loop stops at the first contact without text, whatever the
    keywords are. *)
Lemma score_contacts_raises (keywords : list string) (contacts : list Contact) :
  ¬ Forall has_text contacts → score_contacts keywords contacts = Raise TypeError.
Proof.
  induction contacts as [|c contacts IH]; intros Hn.
  - exfalso. apply Hn. constructor.
  - simpl. destruct (decide (has_text c)) as [Hc|Hc].
    + pose proof (contact_text_ok c Hc) as Hok.
      destruct (contact_text c) as [text|]; [simpl|done].
      rewrite IH; [done|]. intros Hall. apply Hn. by constructor.
    + by rewrite contact_text_raises.
Qed.

Lemma score_contacts_no_keywords (contacts : list Contact) (scored : list (Contact * nat)) :
  score_contacts [] contacts = Ok scored → scored = [].
Proof.
  intros H. apply score_contacts_inv in H as (Hall & _ & _).
  destruct scored as [|p scored]; [done|].
  apply Forall_cons in Hall as [[H0 Hle] _]. simpl in Hle. lia.
Qed.

(** *** Sorting *)

Lemma insert_by_score_perm (x : Contact * nat) (l : list (Contact * nat)) :
  insert_by_score x l ≡ₚ x :: l.
Proof.
  induction l as [|y l IH]; simpl; [done|].
  destruct (x.2 <? y.2); [|done].
  by rewrite IH, Permutation_swap.
Qed.

Lemma sort_by_score_perm (l : list (Contact * nat)) : sort_by_score l ≡ₚ l.
Proof.
  unfold sort_by_score. induction l as [|x l IH]; simpl; [done|].
  by rewrite insert_by_score_perm, IH.
Qed.

Lemma insert_by_score_descending (x : Contact * nat) (l : list (Contact * nat)) :
  descending l → descending (insert_by_score x l).
Proof.
  unfold descending. induction 1 as [|y l Hl IH Hy]; simpl.
  - by repeat constructor.
  - destruct (x.2 <? y.2) eqn:Hxy.
    + apply Nat.ltb_lt in Hxy. constructor; [done|].
      rewrite insert_by_score_perm. constructor; [lia|done].
    + apply Nat.ltb_ge in Hxy. constructor; [by constructor|].
      constructor; [done|]. eapply Forall_impl; [exact Hy|]. simpl. intros; lia.
Qed.

Lemma sort_by_score_descending (l : list (Contact * nat)) : descending (sort_by_score l).
Proof.
  unfold sort_by_score. induction l as [|x l IH]; simpl.
  - constructor.
  - by apply insert_by_score_descending.
Qed.

(** Entries with the same score keep their order: the sort is stable. *)
Lemma insert_by_score_stable (s : nat) (x : Contact * nat) (l : list (Contact * nat)) :
  descending l →
  filter (λ p, p.2 = s) (insert_by_score x l) = filter (λ p, p.2 = s) (x :: l).
Proof.
  unfold descending. induction 1 as [|y l Hl IH Hy]; simpl; [done|].
  destruct (x.2 <? y.2) eqn:Hxy; [|done].
  apply Nat.ltb_lt in Hxy.
  rewrite (filter_cons _ y), IH, !(filter_cons _ x), (filter_cons _ y).
  repeat case_decide; try done. lia.
Qed.

Lemma sort_by_score_stable (s : nat) (l : list (Contact * nat)) :
  filter (λ p, p.2 = s) (sort_by_score l) = filter (λ p, p.2 = s) l.
Proof.
  unfold sort_by_score. induction l as [|x l IH]; simpl; [done|].
  rewrite insert_by_score_stable by apply sort_by_score_descending.
  by rewrite !(filter_cons _ x), IH.
Qed.

(** *** Filtering and truncation keep the order *)

Lemma list_filter_sublist {A : Type} (p : A → bool) (l : list A) :
  List.filter p l `sublist_of` l.
Proof.
  induction l as [|x l IH]; simpl; [constructor|].
  destruct (p x); by constructor.
Qed.

Lemma descending_sublist (l k : list (Contact * nat)) :
  l `sublist_of` k → descending k → descending l.
Proof.
  unfold descending. intros Hsub. induction Hsub as [|x l k Hsub IH|x l k Hsub IH].
  - done.
  - intros [Hk Hx]%StronglySorted_inv. constructor; [by apply IH|].
    rewrite Forall_forall in Hx |- *. intros y Hy.
    apply Hx. by apply (sublist_subseteq _ _ Hsub).
  - intros [Hk _]%StronglySorted_inv. by apply IH.
Qed.

Lemma Forall_sublist {A : Type} (P : A → Prop) (l k : list A) :
  l `sublist_of` k → Forall P k → Forall P l.
Proof.
  intros Hsub. rewrite !Forall_forall. intros Hk x Hx.
  apply Hk. by apply (sublist_subseteq _ _ Hsub).
Qed.

Lemma slice_to_prefix {A : Type} (l : list A) (limit : Z) :
  slice_to l limit `prefix_of` l.
Proof. unfold slice_to. destruct (0 <=? limit)%Z; apply prefix_take. Qed.

Lemma prefix_filter {A : Type} (P : A → Prop) `{∀ x, Decision (P x)} (l k : list A) :
  l `prefix_of` k → filter P l `prefix_of` filter P k.
Proof. intros [r ->]. rewrite filter_app. by eexists. Qed.

Lemma prefix_sublist {A : Type} (l k : list A) : l `prefix_of` k → l `sublist_of` k.
Proof. intros [r ->]. by apply sublist_inserts_r. Qed.

Lemma filter_list_filter {A : Type} (P : A → Prop) `{∀ x, Decision (P x)}
    (q : A → bool) (l : list A) :
  filter P (List.filter q l) = List.filter q (filter P l).
Proof.
  induction l as [|x l IH]; simpl; [done|].
  destruct (q x) eqn:Hq; rewrite !filter_cons; case_decide; simpl; rewrite ?Hq, ?IH; done.
Qed.

(** *** Relevance *)

Lemma relevance_range (keywords : list string) (score : nat) :
  score ≤ length keywords → (0 <= relevance keywords score <= 1)%Q.
Proof.
  intros Hle. unfold relevance. destruct keywords as [|k keywords]; [done|].
  unfold Qle. cbn [Qnum Qden].
  assert (Z.pos (Pos.of_nat (length (k :: keywords))) = Z.of_nat (length (k :: keywords)))
    as ->.
  { rewrite <- positive_nat_Z, Nat2Pos.id; [done|]. simpl. lia. }
  lia.
Qed.

Lemma relevance_mono (keywords : list string) (s1 s2 : nat) :
  s1 ≤ s2 → (relevance keywords s1 <= relevance keywords s2)%Q.
Proof.
  intros Hle. unfold relevance. destruct keywords as [|k keywords]; [done|].
  unfold Qle. cbn [Qnum Qden]. nia.
Qed.

Lemma ranked_hits (keywords : list string) (l : list (Contact * nat)) :
  descending l → ranked (search_hit keywords <$> l).
Proof.
  unfold descending, ranked. induction 1 as [|x l Hl IH Hx]; csimpl; constructor.
  - exact IH.
  - apply Forall_fmap. eapply Forall_impl; [exact Hx|].
    intros b Hb. simpl. by apply relevance_mono.
Qed.

(** *** The search on contacts that all have their text fields *)

(** The list of scored contacts the result is built from. *)
Lemma search_inv (contacts : list Contact) (query : string) (top_k : Z)
    (mq : option Z) (ie : option bool) (cf : option string) (r : SearchResult.t) :
  vector_search_contacts_tool contacts query top_k mq ie cf = Ok r →
  ∃ scored,
    score_contacts (extract_keywords query) contacts = Ok scored
    ∧ SearchResult.contacts r
      = search_hit (extract_keywords query)
        <$> slice_to (List.filter (λ p, passes_filters mq ie cf p.1) (sort_by_score scored))
                     top_k
    ∧ SearchResult.extractedKeywords r = extract_keywords query
    ∧ SearchResult.totalMatched r = length (SearchResult.contacts r).
Proof.
  unfold vector_search_contacts_tool. rewrite rbind_ok.
  intros (scored & Hscored & [= <-]). by exists scored.
Qed.

Lemma search_total (contacts : list Contact) (query : string) (top_k : Z)
    (mq : option Z) (ie : option bool) (cf : option string) :
  Forall has_text contacts ↔
  is_ok (vector_search_contacts_tool contacts query top_k mq ie cf) = true.
Proof.
  unfold vector_search_contacts_tool. split.
  - intros H. apply (score_contacts_total (extract_keywords query)) in H.
    by destruct (score_contacts _ _).
  - intros H. destruct (decide (Forall has_text contacts)) as [|Hn]; [done|].
    by rewrite score_contacts_raises in H.
Qed.

(** On contacts that all carry title, company name and industry the search
    returns; the hits are ordered by non-increasing relevance, every
    relevance lies in [0,1], hits of equal score keep the source order, and
    without an extracted keyword the result is empty. *)
Lemma search_ranked (contacts : list Contact) (query : string) (top_k : Z)
    (mq : option Z) (ie : option bool) (cf : option string) :
  Forall has_text contacts →
  ∃ r scored,
    vector_search_contacts_tool contacts query top_k mq ie cf = Ok r
    ∧ score_contacts (extract_keywords query) contacts = Ok scored
    ∧ scored.*1 `sublist_of` contacts
    ∧ ranked (SearchResult.contacts r)
    ∧ Forall (λ h, (0 <= SearchHit.relevanceScore h <= 1)%Q) (SearchResult.contacts r)
    ∧ (∀ s, filter (λ p, p.2 = s)
              (slice_to (List.filter (λ p, passes_filters mq ie cf p.1)
                                     (sort_by_score scored)) top_k)
            `prefix_of`
            List.filter (λ p, passes_filters mq ie cf p.1) (filter (λ p, p.2 = s) scored))
    ∧ (extract_keywords query = [] →
       SearchResult.contacts r = [] ∧ SearchResult.extractedKeywords r = []).
Proof.
  intros Htext.
  pose proof (proj1 (search_total contacts query top_k mq ie cf) Htext) as Hok.
  destruct (vector_search_contacts_tool _ _ _ _ _ _) as [r|] eqn:Hr; [|done].
  destruct (search_inv _ _ _ _ _ _ _ Hr) as (scored & Hscored & Hres & Hkw & _).
  destruct (score_contacts_inv _ _ _ Hscored) as (Hall & Hsub & _).
  set (final := slice_to _ top_k) in *.
  assert (final `sublist_of` sort_by_score scored) as Hfinal.
  { etrans; [apply prefix_sublist, slice_to_prefix|apply list_filter_sublist]. }
  exists r, scored. split_and!; try done.
  - rewrite Hres. apply ranked_hits.
    eapply descending_sublist; [exact Hfinal|apply sort_by_score_descending].
  - rewrite Hres. apply Forall_fmap.
    eapply Forall_sublist; [exact Hfinal|].
    rewrite sort_by_score_perm.
    eapply Forall_impl; [exact Hall|]. intros p [_ Hle]. simpl.
    by apply relevance_range.
  - intros s. rewrite <- (sort_by_score_stable s scored), <- filter_list_filter.
    apply prefix_filter, slice_to_prefix.
  - intros Hnil. rewrite Hkw. split; [|done].
    rewrite Hnil in Hscored. apply score_contacts_no_keywords in Hscored.
    rewrite Hres. subst final. rewrite Hscored. simpl.
    unfold slice_to. destruct (0 <=? top_k)%Z; by rewrite take_nil.
Qed.

Example search_sample :
  (let* r := vector_search_contacts_tool sample_contacts
               "Fintech or SaaS payment companies" 20 None None None in
   Ok ((λ h, (Minimal.id (SearchHit.contact h), SearchHit.relevanceScore h))
         <$> SearchResult.contacts r,
       SearchResult.extractedKeywords r))
  = Ok ([("a1", 2 # 3); ("c3", 2 # 3); ("b2", 1 # 3)], ["fintech"; "payment"; "saas"])
  ∧ (let* r := vector_search_contacts_tool sample_contacts "hello" 20 None None None in
     Ok (SearchResult.contacts r, SearchResult.extractedKeywords r))
    = Ok ([], []).
Proof. split; vm_compute; reflexivity. Qed.

(** C10: the search does not return for every contact set.  A contact built
    from a raw record without Title has [title = None];
    [c.get('title', '')] returns that [None] and [' '.join] raises
    TypeError, so the search raises for every query, with or without
    vocabulary keywords, instead of returning a (possibly empty) ranked
    list. *)
Theorem search_raises_without_title :
  extract_keywords "hello" = []
  ∧ (let* contacts := load_contacts
       [ {[ "First Name" := "Ada"; "Company Name" := "PayCo"; "Industry" := "Fintech" ]} ] in
     vector_search_contacts_tool contacts "hello" 20 None None None)
    = Raise TypeError
  ∧ (let* contacts := load_contacts
       [ {[ "First Name" := "Ada"; "Company Name" := "PayCo"; "Industry" := "Fintech" ]} ] in
     vector_search_contacts_tool contacts "fintech leaders" 20 None None None)
    = Raise TypeError.
Proof. repeat split; vm_compute; reflexivity. Qed.

(** * Further properties of the code *)

(** ** Strings *)

Lemma lower_char_idemp (c : ascii) : Py.lower_char (Py.lower_char c) = Py.lower_char c.
Proof. destruct c as [[] [] [] [] [] [] [] []]; reflexivity. Qed.

Lemma lower_idemp (s : string) : Py.lower (Py.lower s) = Py.lower s.
Proof. induction s as [|c s IH]; simpl; [done|]. rewrite lower_char_idemp. by f_equal. Qed.

Lemma append_cons (x : ascii) (a b : string) : String x a +:+ b = String x (a +:+ b).
Proof. reflexivity. Qed.

Lemma lower_app (a b : string) : Py.lower (a +:+ b) = Py.lower a +:+ Py.lower b.
Proof. induction a as [|c a IH]; simpl; [done|]. rewrite append_cons. by f_equal. Qed.

Lemma append_assoc (a b c : string) : (a +:+ b) +:+ c = a +:+ (b +:+ c).
Proof. induction a as [|x a IH]; [done|]. rewrite !append_cons. by f_equal. Qed.

Lemma append_empty_r (a : string) : a +:+ "" = a.
Proof. induction a as [|x a IH]; [done|]. rewrite !append_cons. by f_equal. Qed.

Lemma prefix_true_iff (k h : string) :
  String.prefix k h = true ↔ ∃ after, h = k +:+ after.
Proof.
  revert h. induction k as [|x k IH]; intros h.
  - destruct h; simpl; split; eauto.
  - destruct h as [|y h]; simpl.
    + split; [discriminate|]. intros [after H]. rewrite append_cons in H. discriminate.
    + destruct (ascii_dec x y) as [<-|Hne].
      * rewrite IH. split; intros [after H]; exists after.
        -- rewrite append_cons. congruence.
        -- rewrite append_cons in H. congruence.
      * split; [discriminate|]. intros [after H].
        rewrite append_cons in H. congruence.
Qed.

(** [needle in hay] holds exactly when [hay] is some text, the needle, and
    some more text. *)
Lemma contains_occurs (needle hay : string) :
  Py.contains needle hay = true ↔ occurs_in needle hay.
Proof.
  unfold occurs_in. induction hay as [|c hay IH].
  - cbn [Py.contains]. rewrite orb_false_r, prefix_true_iff. split.
    + intros [after H]. by exists "", after.
    + intros (before & after & H). destruct before as [|x before].
      * by exists after.
      * rewrite append_cons in H. discriminate.
  - cbn [Py.contains]. rewrite orb_true_iff, prefix_true_iff, IH. split.
    + intros [[after H]|(before & after & H)].
      * by exists "", after.
      * exists (String c before), after. rewrite append_cons. by rewrite H.
    + intros (before & after & H). destruct before as [|x before].
      * left. by exists after.
      * right. rewrite append_cons in H. injection H as _ H. by exists before, after.
Qed.

Lemma contains_extend (needle hay before after : string) :
  Py.contains needle hay = true → Py.contains needle (before +:+ hay +:+ after) = true.
Proof.
  rewrite !contains_occurs. intros (b & a & ->).
  exists (before +:+ b), (a +:+ after). by rewrite !append_assoc.
Qed.

(** ** Executive flag *)

Lemma get_default_insert_eq (record : RawRecord) (k v d : string) :
  Py.get_default (<[k := v]> record) k d = v.
Proof. unfold Py.get_default. by rewrite lookup_insert_eq. Qed.

Lemma get_default_insert_ne (record : RawRecord) (k j v d : string) :
  k ≠ j → Py.get_default (<[k := v]> record) j d = Py.get_default record j d.
Proof. intros H. unfold Py.get_default. by rewrite lookup_insert_ne. Qed.

(** X1: the executive flag is set exactly when one of the seven keywords
    occurs, as a substring, in the lower-cased Seniority or the lower-cased
    Title of the record (absent columns count as empty), so it does not
    depend on the letter case of either column. *)
Theorem executive_flag_substring (record : RawRecord) :
  (is_executive_contact record = true
   ↔ ∃ keyword, keyword ∈ executive_keywords
       ∧ (occurs_in keyword (Py.lower (Py.get_default record "Seniority" ""))
          ∨ occurs_in keyword (Py.lower (Py.get_default record "Title" ""))))
  ∧ (∀ t, is_executive_contact (<["Title" := Py.lower t]> record)
          = is_executive_contact (<["Title" := t]> record))
  ∧ (∀ s, is_executive_contact (<["Seniority" := Py.lower s]> record)
          = is_executive_contact (<["Seniority" := s]> record)).
Proof.
  split_and!.
  - unfold is_executive_contact. cbv zeta. rewrite existsb_exists. split.
    + intros (k & Hk & H). exists k. split; [by apply list_elem_of_In|].
      apply orb_true_iff in H. by rewrite <- !contains_occurs.
    + intros (k & Hk & H). exists k. split; [by apply list_elem_of_In|].
      apply orb_true_iff. by rewrite !contains_occurs.
  - intros t. unfold is_executive_contact. cbv zeta.
    rewrite !get_default_insert_eq, !get_default_insert_ne by discriminate.
    by rewrite lower_idemp.
  - intros s. unfold is_executive_contact. cbv zeta.
    rewrite !get_default_insert_eq, !get_default_insert_ne by discriminate.
    by rewrite lower_idemp.
Qed.

(** X2: text added before or after the title (or the seniority) of an
    executive record never clears the flag. *)
Theorem executive_flag_monotone (record : RawRecord) (before after : string) :
  is_executive_contact record = true →
  is_executive_contact
    (<["Title" := before +:+ Py.get_default record "Title" "" +:+ after]> record) = true
  ∧ is_executive_contact
      (<["Seniority" := before +:+ Py.get_default record "Seniority" "" +:+ after]> record)
    = true.
Proof.
  unfold is_executive_contact. cbv zeta. rewrite !existsb_exists.
  intros (k & Hk & H). apply orb_true_iff in H.
  split; exists k; (split; [done|]); apply orb_true_iff.
  - rewrite get_default_insert_eq, get_default_insert_ne by discriminate.
    destruct H as [H|H]; [by left|right].
    rewrite !lower_app. by apply contains_extend.
  - rewrite get_default_insert_eq, get_default_insert_ne by discriminate.
    destruct H as [H|H]; [left|by right].
    rewrite !lower_app. by apply contains_extend.
Qed.

Lemma executive_flag_monotone_witness :
  is_executive_contact {[ "Title" := "CEO" ]} = true
  ∧ is_executive_contact
      (<["Title" := "Interim " +:+ Py.get_default {[ "Title" := "CEO" ]} "Title" ""
                    +:+ " (acting)"]> {[ "Title" := "CEO" ]}) = true.
Proof.
  assert (is_executive_contact {[ "Title" := "CEO" ]} = true) as H
    by (vm_compute; reflexivity).
  split; [exact H|].
  exact (proj1 (executive_flag_monotone {[ "Title" := "CEO" ]} "Interim " " (acting)" H)).
Defined.

(** ** Invariants of a built contact *)

Lemma contact_state_closed (record : RawRecord) :
  determine_contact_state record ∈ contact_states.
Proof.
  unfold determine_contact_state, contact_states. cbv zeta.
  repeat case_match; set_solver.
Qed.

Lemma truthy_get_default (record : RawRecord) (k : string) :
  Py.truthy_get (record !! k) = Py.truthy_str (Py.get_default record k "").
Proof. unfold Py.get_default. by destruct (record !! k). Qed.

Lemma quality_score_email (record : RawRecord) :
  Py.truthy_get (record !! "Email") = true → (10 ≤ calculate_quality_score record)%Z.
Proof.
  intros He. rewrite quality_score_weighted_sum.
  pose proof (weighted_sum_bounds (drop 3 quality_checks) record) as Hrest.
  unfold weighted_sum, quality_checks, present in *. cbn [foldr fst snd drop] in *.
  rewrite He.
  destruct Hrest as [Hrest _]; [repeat constructor; simpl; lia|].
  destruct (Py.truthy_get (record !! "First Name"));
    destruct (Py.truthy_get (record !! "Last Name")); lia.
Qed.

(** X3: in every contact the normaliser builds, contactState is one of the
    eight state names and agrees with the other fields: INCOMPLETE goes with
    an empty email; NOT_CONTACTED and INTERESTED_NOT_CONTACTED go with a
    non-empty email and a quality score of at least 10; and
    INTERESTED_NOT_CONTACTED goes with stage "Interested". *)
Theorem built_contact_state_invariants (record : RawRecord) (c : Contact) :
  transform_apollo_to_contact record = Ok c →
  contactState c ∈ contact_states
  ∧ (contactState c = "INCOMPLETE" → email c = "")
  ∧ (contactState c = "NOT_CONTACTED" ∨ contactState c = "INTERESTED_NOT_CONTACTED" →
     email c ≠ "" ∧ (10 ≤ qualityScore c)%Z)
  ∧ (contactState c = "INTERESTED_NOT_CONTACTED" → stage c = "Interested").
Proof.
  unfold transform_apollo_to_contact.
  destruct (Py.int _) as [n|e]; simpl; [|discriminate].
  intros [= <-]. cbn [contactState email qualityScore stage].
  split; [apply contact_state_closed|].
  pose proof (quality_score_email record) as Hq.
  unfold determine_contact_state. cbv zeta.
  rewrite truthy_get_default in *.
  destruct (flag record "Replied"); [split_and!; [discriminate|intros [|]; discriminate|discriminate]|].
  destruct (flag record "Demoed"); [split_and!; [discriminate|intros [|]; discriminate|discriminate]|].
  destruct (flag record "Email Bounced");
    [split_and!; [discriminate|intros [|]; discriminate|discriminate]|].
  destruct (flag record "Email Open");
    [split_and!; [discriminate|intros [|]; discriminate|discriminate]|].
  destruct (flag record "Email Sent");
    [split_and!; [discriminate|intros [|]; discriminate|discriminate]|].
  destruct (Py.get_default record "Email" "") as [|x e] eqn:He; simpl in *.
  - split_and!; [done|intros [|]; discriminate|discriminate].
  - case_bool_decide as Hs.
    + split_and!; [discriminate|intros _; split; [discriminate|by apply Hq]|].
      intros _. unfold Py.get_default in *. destruct (record !! "Stage"); [done|discriminate].
    + split_and!; [discriminate|intros _; split; [discriminate|by apply Hq]|discriminate].
Qed.

Lemma built_contact_state_invariants_witness :
  ∃ c, transform_apollo_to_contact
         {[ "Email" := "ada@pay.example"; "Stage" := "Interested" ]} = Ok c
       ∧ contactState c = "INTERESTED_NOT_CONTACTED"
       ∧ email c ≠ "" ∧ (10 ≤ qualityScore c)%Z ∧ stage c = "Interested".
Proof.
  destruct (transform_apollo_to_contact
              {[ "Email" := "ada@pay.example"; "Stage" := "Interested" ]}) as [c|e] eqn:Hc.
  - pose proof (built_contact_state_invariants _ c Hc) as (_ & _ & H2 & H3).
    assert (contactState c = "INTERESTED_NOT_CONTACTED") as Hs
      by (vm_compute in Hc; by injection Hc as <-).
    exists c. split; [done|]. split; [done|].
    destruct (H2 (or_intror Hs)) as [He Hq]. by rewrite (H3 Hs).
  - vm_compute in Hc. discriminate.
Defined.

(** ** Splitting and stripping *)

Lemma split_nonempty (sep : ascii) (s : string) : Py.split sep s ≠ [].
Proof.
  destruct s as [|c s]; simpl; [done|].
  destruct (Ascii.eqb c sep); [done|]. by destruct (Py.split sep s).
Qed.

Lemma split_no_sep (sep : ascii) (s : string) :
  Forall (λ w, sep ∉ chars w) (Py.split sep s).
Proof.
  induction s as [|c s IH]; simpl.
  - repeat constructor. unfold chars. simpl. set_solver.
  - destruct (Ascii.eqb_spec c sep) as [->|Hne].
    + constructor; [|done]. unfold chars. simpl. set_solver.
    + pose proof (split_nonempty sep s) as Hs.
      destruct (Py.split sep s) as [|w ws]; [done|].
      apply Forall_cons in IH as [Hw Hws]. constructor; [|done].
      unfold chars in *. simpl. set_solver.
Qed.

Lemma lstrip_chars (s : string) : chars (Py.lstrip s) ⊆ chars s.
Proof.
  unfold chars. induction s as [|c s IH]; simpl; [done|].
  destruct (Py.is_space c); set_solver.
Qed.

Lemma rstrip_chars (s : string) : chars (Py.rstrip s) ⊆ chars s.
Proof.
  unfold chars. induction s as [|c s IH]; simpl; [done|].
  destruct (Py.rstrip s) as [|x r].
  - destruct (Py.is_space c); simpl; set_solver.
  - simpl in *. set_solver.
Qed.

Lemma strip_chars (s : string) : chars (Py.strip s) ⊆ chars s.
Proof. unfold Py.strip. etrans; [apply rstrip_chars|apply lstrip_chars]. Qed.

(** What is left of a string after [lstrip] is empty or starts with a
    character that is no whitespace. *)
Lemma lstrip_head (s : string) :
  Py.lstrip s = "" ∨ ∃ c r, Py.lstrip s = String c r ∧ Py.is_space c = false.
Proof.
  induction s as [|c s IH]; simpl; [by left|].
  destruct (Py.is_space c) eqn:Hc; [done|]. right. eauto.
Qed.

Lemma rstrip_cons (c : ascii) (s : string) :
  Py.rstrip (String c s)
  = match Py.rstrip s with
    | EmptyString => if Py.is_space c then EmptyString else String c EmptyString
    | String x r => String c (String x r)
    end.
Proof. reflexivity. Qed.

Lemma rstrip_idemp (s : string) : Py.rstrip (Py.rstrip s) = Py.rstrip s.
Proof.
  induction s as [|c s IH]; [done|]. rewrite (rstrip_cons c s).
  destruct (Py.rstrip s) as [|x r] eqn:Hr.
  - destruct (Py.is_space c) eqn:Hc; [done|]. rewrite rstrip_cons. simpl. by rewrite Hc.
  - rewrite (rstrip_cons c (String x r)), IH. done.
Qed.

Lemma rstrip_keeps_head (c : ascii) (r : string) :
  Py.is_space c = false → ∃ r', Py.rstrip (String c r) = String c r'.
Proof.
  intros Hc. rewrite rstrip_cons. destruct (Py.rstrip r); [rewrite Hc|]; eauto.
Qed.

(** [strip] leaves no whitespace at either end, and stripping again changes
    nothing. *)
Lemma strip_stripped (s : string) : stripped (Py.strip s).
Proof.
  unfold stripped, Py.strip. split; [|apply rstrip_idemp].
  destruct (lstrip_head s) as [->|(c & r & -> & Hc)]; [done|].
  destruct (rstrip_keeps_head c r Hc) as [r' ->]. simpl. by rewrite Hc.
Qed.

(** X4: the list parsed from a comma-delimited column holds only entries
    that are non-empty, carry no whitespace at either end and contain no
    comma; this holds for the technologies and keywords of every contact
    the normaliser builds, and an empty or blank column gives the empty
    list. *)
Theorem parse_list_entries (s : string) :
  Forall (λ t, t ≠ "" ∧ stripped t ∧ ("," : ascii) ∉ chars t) (parse_list s)
  ∧ (Py.strip s = "" → ("," : ascii) ∉ chars s → parse_list s = [])
  ∧ (∀ record c, transform_apollo_to_contact record = Ok c →
       technologies c = parse_list (Py.get_default record "Technologies" "")
       ∧ keywords c = parse_list (Py.get_default record "Keywords" "")).
Proof.
  split_and!.
  - unfold parse_list. pose proof (split_no_sep "," s) as Hsplit.
    induction Hsplit as [|w ws Hw _ IH]; [constructor|].
    cbn [omap list_omap]. destruct (Py.strip w) as [|x r] eqn:Hx; cbn [Py.truthy_str].
    + exact IH.
    + constructor; [|exact IH]. rewrite <- Hx. split_and!.
      * by rewrite Hx.
      * apply strip_stripped.
      * intros Hin. apply Hw. by apply (strip_chars w).
  - intros Hs Hcomma. unfold parse_list.
    assert (Py.split "," s = [s]) as ->.
    { clear Hs. induction s as [|c s IH]; [done|]. simpl.
      destruct (Ascii.eqb_spec c ",") as [->|Hne].
      - exfalso. apply Hcomma. unfold chars. simpl. set_solver.
      - rewrite IH; [done|]. unfold chars in *. simpl in *. set_solver. }
    cbn [omap list_omap]. by rewrite Hs.
  - intros record c. unfold transform_apollo_to_contact.
    destruct (Py.int _); simpl; [|discriminate]. by intros [= <-].
Qed.

Example parse_list_examples :
  parse_list "" = [] ∧ parse_list " , ,," = []
  ∧ parse_list "Stripe,  AWS ,,React Native" = ["Stripe"; "AWS"; "React Native"].
Proof. repeat split; vm_compute; reflexivity. Qed.

(** ** Loading the rows *)

Lemma load_contacts_rows (rows : list RawRecord) (contacts : list Contact) :
  load_contacts rows = Ok contacts →
  Forall2 (λ row c, transform_apollo_to_contact row = Ok c) rows contacts.
Proof.
  revert contacts. induction rows as [|row rows IH]; simpl; intros contacts.
  - intros [= <-]. constructor.
  - rewrite rbind_ok. intros (c & Hc & H).
    apply rbind_ok in H as (cs & Hcs & [= <-]). constructor; auto.
Qed.

(** X5: loading keeps one contact per row, in row order: when the load
    returns, the i-th contact is the normalised i-th row and no row is
    dropped.  The load returns exactly when every row normalises; otherwise
    it raises the exception of the first row that does not, and the rows
    after it are not looked at. *)
Theorem load_contacts_one_per_row (rows : list RawRecord) :
  (∀ contacts, load_contacts rows = Ok contacts →
     length contacts = length rows
     ∧ ∀ i row, rows !! i = Some row →
         ∃ c, contacts !! i = Some c ∧ transform_apollo_to_contact row = Ok c)
  ∧ (is_ok (load_contacts rows) = true
     ↔ Forall (λ row, is_ok (transform_apollo_to_contact row) = true) rows)
  ∧ (∀ good row rest e,
       rows = good ++ row :: rest →
       Forall (λ row, is_ok (transform_apollo_to_contact row) = true) good →
       transform_apollo_to_contact row = Raise e →
       load_contacts rows = Raise e).
Proof.
  split_and!.
  - intros contacts H. apply load_contacts_rows in H. split.
    + symmetry. by eapply Forall2_length.
    + intros i row Hi. destruct (Forall2_lookup_l _ _ _ _ _ H Hi) as (c & Hc & Ht). eauto.
  - induction rows as [|row rows IH]; simpl; [by split; [constructor|]|].
    rewrite Forall_cons, <- IH.
    destruct (transform_apollo_to_contact row) as [c|e]; simpl.
    + destruct (load_contacts rows); simpl; intuition.
    + intuition discriminate.
  - intros good row rest e -> Hgood Hrow.
    induction Hgood as [|g good Hg _ IH]; simpl.
    + by rewrite Hrow.
    + destruct (transform_apollo_to_contact g); [simpl|done]. by rewrite IH.
Qed.

Example load_sample :
  is_ok (load_contacts sample_rows) = true
  ∧ length sample_contacts = 3
  ∧ load_contacts (sample_rows ++ [ {[ "# Employees" := "n/a" ]}; {[ "# Employees" := "7" ]} ])
    = Raise ValueError.
Proof. repeat split; vm_compute; reflexivity. Qed.

(** ** More on the filter engine *)

(** X6: a negative limit is not rejected.  [contacts[:limit]] then drops
    the last [-limit] selected contacts: the query returns the first
    [total - |limit|] of them (none when there are not that many), while
    [total] still counts all of them. *)
Theorem query_negative_limit (contacts filtered : list Contact)
    (where_clauses : option (list Clause)) (f : Filters) (limit : Z) :
  (limit < 0)%Z →
  filter_contacts contacts f where_clauses = Ok filtered →
  ∃ r, query_contacts_tool contacts where_clauses f limit = Ok r
     ∧ QueryResult.total r = length filtered
     ∧ QueryResult.contacts r
       = minimal <$> take (length filtered - Z.to_nat (- limit)) filtered
     ∧ QueryResult.returned r = length filtered - Z.to_nat (- limit).
Proof.
  intros Hlimit Hf. unfold query_contacts_tool. rewrite Hf. simpl.
  eexists. split; [reflexivity|]. simpl.
  unfold slice_to. rewrite (proj2 (Z.leb_gt 0 limit) Hlimit).
  split_and!; [done|done|]. rewrite length_fmap, length_take. lia.
Qed.

Lemma query_negative_limit_witness :
  (-1 < 0)%Z
  ∧ ∃ r, query_contacts_tool sample_contacts None no_filters (-1) = Ok r
       ∧ QueryResult.total r = 3 ∧ QueryResult.returned r = 2.
Proof.
  split; [lia|].
  destruct (query_negative_limit sample_contacts sample_contacts None no_filters (-1))
    as (r & Hr & Ht & _ & Hret); [lia|reflexivity|].
  exists r. split; [exact Hr|]. split; [exact Ht|exact Hret].
Defined.

Lemma passes_clauses_all (clauses : list Clause) (c : Contact) :
  passes_clauses clauses c = Ok true
  ↔ Forall (λ clause, clause_test clause c = Ok true) clauses.
Proof.
  induction clauses as [|clause rest IH].
  - split; [constructor|done].
  - rewrite passes_clauses_cons, Forall_cons, IH. done.
Qed.

(** X7: the order of the generic clauses does not matter for the result.
    Whenever the filtering returns for two orderings of the same clauses,
    it returns the same contacts (the ones that pass the typed filters and
    every clause); the order can only decide whether an exception is
    raised. *)
Theorem clause_order_irrelevant (contacts r1 r2 : list Contact) (f : Filters)
    (clauses1 clauses2 : list Clause) :
  clauses1 ≡ₚ clauses2 →
  filter_contacts contacts f (Some clauses1) = Ok r1 →
  filter_contacts contacts f (Some clauses2) = Ok r2 →
  r1 = r2
  ∧ r1 = filter (λ c, passes_typed f c = true
                      ∧ Forall (λ clause, clause_test clause c = Ok true) clauses1)
                contacts.
Proof.
  intros Hperm H1 H2.
  apply filter_contacts_selected in H1. apply filter_contacts_selected in H2.
  simpl in *. subst r1 r2. split.
  - apply list_filter_iff. intros c. unfold selected.
    rewrite !passes_clauses_all. by rewrite Hperm.
  - apply list_filter_iff. intros c. unfold selected.
    by rewrite passes_clauses_all.
Qed.

Lemma clause_order_irrelevant_witness :
  [ mkClause (Some "industry") (Some "equals") (VStr "Fintech");
    mkClause (Some "keywords") (Some "contains") (VStr "payment") ]
  ≡ₚ [ mkClause (Some "keywords") (Some "contains") (VStr "payment");
       mkClause (Some "industry") (Some "equals") (VStr "Fintech") ]
  ∧ filter_contacts sample_contacts no_filters
      (Some [ mkClause (Some "industry") (Some "equals") (VStr "Fintech");
              mkClause (Some "keywords") (Some "contains") (VStr "payment") ])
    = Ok (take 1 sample_contacts)
  ∧ filter_contacts sample_contacts no_filters
      (Some [ mkClause (Some "keywords") (Some "contains") (VStr "payment");
              mkClause (Some "industry") (Some "equals") (VStr "Fintech") ])
    = Ok (take 1 sample_contacts)
  ∧ take 1 sample_contacts = take 1 sample_contacts.
Proof.
  assert (filter_contacts sample_contacts no_filters
      (Some [ mkClause (Some "industry") (Some "equals") (VStr "Fintech");
              mkClause (Some "keywords") (Some "contains") (VStr "payment") ])
    = Ok (take 1 sample_contacts)) as H1 by (vm_compute; reflexivity).
  assert (filter_contacts sample_contacts no_filters
      (Some [ mkClause (Some "keywords") (Some "contains") (VStr "payment");
              mkClause (Some "industry") (Some "equals") (VStr "Fintech") ])
    = Ok (take 1 sample_contacts)) as H2 by (vm_compute; reflexivity).
  split; [apply Permutation_swap|]. split; [exact H1|]. split; [exact H2|].
  exact (proj1 (clause_order_irrelevant _ _ _ _ _ _ (Permutation_swap _ _ []) H1 H2)).
Defined.

(** The order does decide whether an exception is raised: a clause that
    empties the list shields a later clause that would raise. *)
Example clause_order_and_exceptions :
  filter_contacts sample_contacts no_filters
    (Some [ mkClause (Some "industry") (Some "equals") (VStr "Mining");
            mkClause (Some "seniority") (Some "gte") (VInt 1) ]) = Ok []
  ∧ filter_contacts sample_contacts no_filters
      (Some [ mkClause (Some "seniority") (Some "gte") (VInt 1);
              mkClause (Some "industry") (Some "equals") (VStr "Mining") ])
    = Raise TypeError.
Proof. split; vm_compute; reflexivity. Qed.

Lemma filter_r_pure {A : Type} (p : A → bool) (l : list A) :
  filter_r (λ x, Ok (p x)) l = Ok (filter (λ x, p x = true) l).
Proof.
  induction l as [|x l IH]; simpl; [done|]. rewrite IH. simpl.
  destruct (p x) eqn:Hp.
  - by rewrite filter_cons_True.
  - rewrite filter_cons_False; [done|]. by rewrite Hp.
Qed.

Lemma filter_r_ext {A : Type} (p q : A → result bool) (l : list A) :
  (∀ x, p x = q x) → filter_r p l = filter_r q l.
Proof. intros H. induction l as [|x l IH]; simpl; [done|]. by rewrite H, IH. Qed.

Lemma filter_r_all_raise {A : Type} (p : A → result bool) (keep : A → bool) (e : exn)
    (l : list A) :
  (∀ x, p x = if keep x then Raise e else Ok false) →
  filter_r p l = if existsb keep l then Raise e else Ok [].
Proof.
  intros Hp. induction l as [|x l IH]; simpl; [done|].
  rewrite Hp. destruct (keep x); simpl; [done|]. rewrite IH.
  by destruct (existsb keep l).
Qed.

(** X8: what a [contains] clause does.  With a string value it never
    raises and keeps, in order, the contacts that have the field with a
    truthy value whose lower-cased [str] contains the lower-cased value.
    With any other value ([None] when the clause has no value, a number, a
    list) it raises AttributeError as soon as one contact has the field
    with a truthy value, and returns the empty list otherwise. *)
Theorem contains_clause_behaviour (contacts : list Contact) (field : string)
    (value : pyval) :
  field ≠ "" →
  match value with
  | VStr s =>
      apply_clause contacts (mkClause (Some field) (Some "contains") value)
      = Ok (filter (λ c, field_truthy field c = true
                         ∧ Py.contains (Py.lower s)
                             (Py.lower (py_str (contact_get_default c field VNone))) = true)
                   contacts)
  | _ =>
      apply_clause contacts (mkClause (Some field) (Some "contains") value)
      = if existsb (field_truthy field) contacts then Raise AttributeError else Ok []
  end.
Proof.
  intros Hfield. rewrite apply_clause_test. cbn [clause_field clause_operator clause_value].
  destruct field as [|x field]; [done|]. cbn [Py.truthy_str negb].
  rewrite bool_decide_eq_true_2 by done.
  destruct value as [| b | n | s | l].
  4: { rewrite (filter_r_ext _ (λ c, Ok (field_truthy (String x field) c
         && Py.contains (Py.lower s)
              (Py.lower (py_str (contact_get_default c (String x field) VNone)))))).
       - rewrite filter_r_pure. f_equal. apply list_filter_iff. intros c.
         by rewrite andb_true_iff.
       - intros c. unfold contains_test, field_truthy, contact_get_default.
         destruct (contact_get c (String x field)) as [v|]; [|done].
         by destruct (py_truthy v). }
  all: apply filter_r_all_raise; intros c; unfold contains_test, field_truthy;
       destruct (contact_get c (String x field)) as [v|]; [|done];
       by destruct (py_truthy v).
Qed.

Lemma contains_clause_behaviour_witness :
  "keywords" ≠ ""
  ∧ apply_clause sample_contacts (mkClause (Some "keywords") (Some "contains") (VInt 7))
    = (if existsb (field_truthy "keywords") sample_contacts
       then Raise AttributeError else Ok []).
Proof.
  split; [discriminate|].
  exact (contains_clause_behaviour sample_contacts "keywords" (VInt 7) ltac:(discriminate)).
Defined.

Example contains_clause_examples :
  apply_clause sample_contacts (mkClause (Some "keywords") (Some "contains") VNone)
  = Raise AttributeError
  ∧ apply_clause sample_contacts (mkClause (Some "city") (Some "contains") VNone) = Ok []
  ∧ apply_clause sample_contacts (mkClause (Some "region") (Some "contains") (VInt 1)) = Ok []
  ∧ (let* l := apply_clause sample_contacts
                 (mkClause (Some "companySize") (Some "contains") (VStr "0")) in
     Ok (id <$> l)) = Ok ["a1"; "c3"].
Proof. repeat split; vm_compute; reflexivity. Qed.

Lemma apply_clause_gte_quality (contacts : list Contact) (m : Z) :
  apply_clause contacts (mkClause (Some "qualityScore") (Some "gte") (VInt m))
  = Ok (filter (λ c, (m <=? qualityScore c)%Z = true) contacts).
Proof. rewrite apply_clause_test. cbn. apply filter_r_pure. Qed.

Lemma apply_clause_equals (contacts : list Contact) (field : string) (value : pyval) :
  field ≠ "" →
  apply_clause contacts (mkClause (Some field) (Some "equals") value)
  = Ok (filter (λ c, equals_test field value c = true) contacts).
Proof.
  intros Hf. rewrite apply_clause_test. cbn [clause_field clause_operator clause_value].
  destruct field; [done|]. cbn [Py.truthy_str negb].
  rewrite bool_decide_eq_false_2 by discriminate.
  by rewrite bool_decide_eq_true_2.
Qed.

Lemma apply_clauses_single (contacts : list Contact) (clause : Clause) :
  apply_clauses contacts [clause] = apply_clause contacts clause.
Proof. simpl. by destruct (apply_clause contacts clause). Qed.

Lemma apply_clauses_nil (contacts : list Contact) : apply_clauses contacts [] = Ok contacts.
Proof. reflexivity. Qed.

Lemma str_filter_clause (get : Contact → option string) (field : string)
    (s : option string) (contacts : list Contact) :
  field ≠ "" →
  (∀ c, contact_get_default c field VNone = opt_str (get c)) →
  apply_clauses contacts
    (if Py.truthy_get s then [mkClause (Some field) (Some "equals") (opt_str s)] else [])
  = Ok (filter (λ c, str_filter_ok (get c) s = true) contacts).
Proof.
  intros Hf Hget. unfold str_filter_ok.
  destruct (Py.truthy_get s) eqn:Hs.
  2: by rewrite apply_clauses_nil, filter_true.
  - rewrite apply_clauses_single, apply_clause_equals by done. f_equal.
    apply list_filter_iff. intros c. unfold equals_test. rewrite Hget.
    destruct s as [s|]; [|done]. rewrite bool_decide_eq_true.
    destruct (get c) as [t|]; simpl.
    + rewrite bool_decide_eq_true. split; congruence.
    + split; [discriminate|discriminate].
Qed.

(** X9: the typed filters are generic clauses in disguise.  Filtering with
    typed filters [f] and clauses [cl] is filtering without typed filters
    and with, in front of [cl], a [gte] clause on qualityScore and [equals]
    clauses on isExecutive, country, industry and contactState for the
    filters that are set (an empty string counts as not set); these
    clauses never raise. *)
Theorem typed_filters_are_clauses (contacts : list Contact) (f : Filters)
    (where_clauses : option (list Clause)) :
  filter_contacts contacts f where_clauses
  = filter_contacts contacts no_filters
      (Some (filters_as_clauses f ++ clause_list where_clauses))
  ∧ apply_clauses contacts (filters_as_clauses f)
    = Ok (filter (λ c, passes_typed f c = true) contacts).
Proof.
  assert (apply_clauses contacts (filters_as_clauses f)
          = Ok (filter (λ c, passes_typed f c = true) contacts)) as Htyped.
  { unfold filters_as_clauses. rewrite apply_clauses_app.
    assert (apply_clauses contacts
              match min_quality_score f with
              | Some m => [mkClause (Some "qualityScore") (Some "gte") (VInt m)]
              | None => []
              end
            = Ok (filter (λ c, match min_quality_score f with
                               | Some m => (m <=? qualityScore c)%Z
                               | None => true
                               end = true) contacts)) as ->.
    { destruct (min_quality_score f) as [m|].
      - by rewrite apply_clauses_single, apply_clause_gte_quality.
      - by rewrite apply_clauses_nil, filter_true. }
    cbn [rbind]. rewrite apply_clauses_app.
    assert (∀ l, apply_clauses l
              match is_executive f with
              | Some e => [mkClause (Some "isExecutive") (Some "equals") (VBool e)]
              | None => []
              end
            = Ok (filter (λ c, match is_executive f with
                               | Some e => Bool.eqb (isExecutive c) e
                               | None => true
                               end = true) l)) as ->.
    { intros l. destruct (is_executive f) as [e|].
      - rewrite apply_clauses_single, apply_clause_equals by done. f_equal.
        apply list_filter_iff. intros c. unfold equals_test. cbn.
        destruct (isExecutive c), e; simpl; split; congruence.
      - by rewrite apply_clauses_nil, filter_true. }
    cbn [rbind]. rewrite apply_clauses_app.
    rewrite (str_filter_clause country "country") by done.
    cbn [rbind]. rewrite apply_clauses_app.
    rewrite (str_filter_clause industry "industry") by done. cbn [rbind].
    rewrite (str_filter_clause (λ c, Some (contactState c)) "contactState") by done.
    f_equal. rewrite !list_filter_filter. apply list_filter_iff. intros c.
    unfold passes_typed. rewrite !andb_true_iff. tauto. }
  split; [|exact Htyped].
  rewrite !filter_contacts_typed.
  change (clause_list (Some (filters_as_clauses f ++ clause_list where_clauses)))
    with (filters_as_clauses f ++ clause_list where_clauses).
  rewrite apply_clauses_app.
  assert (filter (λ c, passes_typed no_filters c = true) contacts = contacts) as ->.
  { by apply filter_true. }
  by rewrite Htyped.
Qed.

Example typed_filters_sample :
  filters_as_clauses {| min_quality_score := Some 45%Z; is_executive := Some true;
                        country_filter := Some ""; industry_filter := Some "Fintech";
                        contact_state := None |}
  = [ mkClause (Some "qualityScore") (Some "gte") (VInt 45);
      mkClause (Some "isExecutive") (Some "equals") (VBool true);
      mkClause (Some "industry") (Some "equals") (VStr "Fintech") ].
Proof. reflexivity. Qed.

(** ** More on the stats aggregator *)

Lemma filter_bool {A : Type} (p : A → bool) (l : list A) :
  filter (λ x, p x = true) l = List.filter p l.
Proof.
  induction l as [|x l IH]; simpl; [done|].
  destruct (p x) eqn:Hp.
  - rewrite filter_cons_True by done. by rewrite IH.
  - rewrite filter_cons_False; [done|]. by rewrite Hp.
Qed.

Lemma count_by_ext (key1 key2 : Contact → string) (contacts : list Contact) :
  (∀ c, key1 c = key2 c) → count_by key1 contacts = count_by key2 contacts.
Proof.
  intros H. unfold count_by. generalize (∅ : gmap string nat).
  induction contacts as [|c contacts IH]; intros d; simpl; [done|].
  by rewrite H, IH.
Qed.

(** X10: the counters by state and by stage hold exactly the values that
    occur: a key is present when some contact carries it, its counter is the
    number of those contacts (never 0), and the stage counters add up to
    the number of contacts.  For contacts loaded from rows the keys of
    byState are among the eight state names. *)
Theorem stats_counters_present_only (contacts : list Contact) (group_by : option string) :
  (∀ k, Stats.byState (get_contact_stats_tool contacts group_by) !! k
        = match length (filter (λ c, contactState c = k) contacts) with
          | 0 => None
          | S n => Some (S n)
          end)
  ∧ (∀ k, Stats.byStage (get_contact_stats_tool contacts group_by) !! k
          = match length (filter (λ c, stage c = k) contacts) with
            | 0 => None
            | S n => Some (S n)
            end)
  ∧ sum_values (Stats.byStage (get_contact_stats_tool contacts group_by)) = length contacts
  ∧ (∀ rows, load_contacts rows = Ok contacts →
       ∀ k, is_Some (Stats.byState (get_contact_stats_tool contacts group_by) !! k) →
            k ∈ contact_states).
Proof.
  split_and!.
  - intros k. apply count_by_lookup.
  - intros k. apply count_by_lookup.
  - apply sum_values_count_by.
  - intros rows Hload k. simpl. rewrite count_by_lookup.
    destruct (filter _ contacts) as [|c l] eqn:Hf; simpl; [by intros [? ?]|]. intros _.
    assert (c ∈ filter (λ c, contactState c = k) contacts) as Hc by (rewrite Hf; left).
    apply list_elem_of_filter in Hc as [<- Hc].
    apply load_contacts_rows in Hload.
    apply list_elem_of_lookup in Hc as [i Hi].
    destruct (Forall2_lookup_r _ _ _ _ _ Hload Hi) as (row & _ & Hrow).
    apply transform_inv in Hrow as (_ & -> & _). apply contact_state_closed.
Qed.

Lemma query_total_typed (contacts : list Contact) (f : Filters) (limit : Z) :
  (let* r := query_contacts_tool contacts None f limit in Ok (QueryResult.total r))
  = Ok (length (filter (λ c, passes_typed f c = true) contacts)).
Proof. unfold query_contacts_tool. by rewrite filter_contacts_typed. Qed.

(** X11: the high-value counters agree with the query tool.  The number of
    executives is the total of a query filtered on [is_executive = True],
    the counter of a state is the total of a query filtered on that state,
    and highQualityNotContacted is the sum of the totals of the two queries
    with [min_quality_score = 70] on the states NOT_CONTACTED and
    INTERESTED_NOT_CONTACTED; the limit plays no role. *)
Theorem stats_agree_with_query (contacts : list Contact) (group_by : option string)
    (limit : Z) :
  (let* r := query_contacts_tool contacts None
               {| min_quality_score := None; is_executive := Some true;
                  country_filter := None; industry_filter := None;
                  contact_state := None |} limit in
   Ok (QueryResult.total r))
  = Ok (Stats.executives (get_contact_stats_tool contacts group_by))
  ∧ (∀ state, state ≠ "" →
      (let* r := query_contacts_tool contacts None
                   {| min_quality_score := None; is_executive := None;
                      country_filter := None; industry_filter := None;
                      contact_state := Some state |} limit in
       Ok (QueryResult.total r))
      = Ok (default 0 (Stats.byState (get_contact_stats_tool contacts group_by) !! state)))
  ∧ (let* r1 := query_contacts_tool contacts None
                  {| min_quality_score := Some 70%Z; is_executive := None;
                     country_filter := None; industry_filter := None;
                     contact_state := Some "NOT_CONTACTED" |} limit in
     let* r2 := query_contacts_tool contacts None
                  {| min_quality_score := Some 70%Z; is_executive := None;
                     country_filter := None; industry_filter := None;
                     contact_state := Some "INTERESTED_NOT_CONTACTED" |} limit in
     Ok (QueryResult.total r1 + QueryResult.total r2))
    = Ok (Stats.highQualityNotContacted (get_contact_stats_tool contacts group_by)).
Proof.
  split_and!.
  - rewrite query_total_typed. f_equal.
    cbn [Stats.executives get_contact_stats_tool]. unfold count_if.
    rewrite <- filter_bool. f_equal. apply list_filter_iff. intros c.
    unfold passes_typed. cbn. destruct (isExecutive c); simpl; split; congruence.
  - intros state Hstate. rewrite query_total_typed. f_equal.
    cbn [Stats.byState get_contact_stats_tool]. rewrite count_by_lookup.
    rewrite (list_filter_iff _ (λ c, contactState c = state)).
    + by destruct (length _).
    + intros c. unfold passes_typed, str_filter_ok. cbn.
      destruct state; [done|]. cbn. rewrite bool_decide_eq_true. split; congruence.
  - pose proof (query_total_typed contacts
      {| min_quality_score := Some 70%Z; is_executive := None;
         country_filter := None; industry_filter := None;
         contact_state := Some "NOT_CONTACTED" |} limit) as H1.
    pose proof (query_total_typed contacts
      {| min_quality_score := Some 70%Z; is_executive := None;
         country_filter := None; industry_filter := None;
         contact_state := Some "INTERESTED_NOT_CONTACTED" |} limit) as H2.
    destruct (query_contacts_tool contacts None _ limit) as [r1|]; [|discriminate].
    destruct (query_contacts_tool contacts None _ limit) as [r2|]; [|discriminate].
    cbn [rbind] in *. injection H1 as ->. injection H2 as ->. f_equal.
    cbn [Stats.highQualityNotContacted get_contact_stats_tool]. unfold count_if.
    induction contacts as [|c contacts IH]; [done|].
    rewrite !filter_cons. cbn [List.filter].
    unfold passes_typed, str_filter_ok in *. cbn in *.
    destruct (70 <=? qualityScore c)%Z; cbn.
    + repeat case_bool_decide; repeat case_decide; cbn in *; try congruence; try lia.
    + repeat case_decide; try congruence; cbn in *; lia.
Qed.

(** X13: grouping by one of the two fields the aggregator always counts
    gives those counters again: the breakdown by [contactState] is byState
    and the breakdown by [stage] is byStage; a breakdown by a list field
    files contacts under the printed list. *)
Theorem breakdown_repeats_counters (contacts : list Contact) :
  Stats.breakdown (get_contact_stats_tool contacts (Some "contactState"))
  = Some (Stats.byState (get_contact_stats_tool contacts (Some "contactState")))
  ∧ Stats.breakdown (get_contact_stats_tool contacts (Some "stage"))
    = Some (Stats.byStage (get_contact_stats_tool contacts (Some "stage")))
  ∧ (∀ c, breakdown_key "keywords" c
          = "[" +:+ Py.join ", " (py_repr_str <$> keywords c) +:+ "]").
Proof.
  split_and!.
  - cbn [Stats.breakdown Stats.byState get_contact_stats_tool Py.truthy_get Py.truthy_str].
    f_equal; by apply count_by_ext.
  - cbn [Stats.breakdown Stats.byStage get_contact_stats_tool Py.truthy_get Py.truthy_str].
    f_equal; by apply count_by_ext.
  - done.
Qed.

Example breakdown_by_keywords :
  Stats.breakdown (get_contact_stats_tool (take 2 sample_contacts) (Some "keywords"))
  = Some {[ "['payment', 'fintech']" := 1; "[]" := 1 ]}.
Proof. vm_compute; reflexivity. Qed.

(** ** More on the relevance ranker *)

Lemma search_ranked_witness :
  Forall has_text sample_contacts
  ∧ ∃ r, vector_search_contacts_tool sample_contacts "fintech payment" 2 None None None = Ok r
       ∧ ranked (SearchResult.contacts r)
       ∧ Forall (λ h, (0 <= SearchHit.relevanceScore h <= 1)%Q) (SearchResult.contacts r).
Proof.
  assert (Forall has_text sample_contacts) as Htext.
  { vm_compute. repeat constructor; eauto. }
  split; [exact Htext|].
  destruct (search_ranked sample_contacts "fintech payment" 2 None None None Htext)
    as (r & scored & Hr & _ & _ & Hranked & Hrange & _).
  exists r. split; [exact Hr|]. split; [exact Hranked|exact Hrange].
Defined.

(** X15: the search returns exactly when every contact has title, company
    name and industry; otherwise it raises TypeError, whatever the query,
    the limit and the filters are, also when the contact without text would
    have been filtered out or scored 0. *)
Theorem search_returns_iff_text (contacts : list Contact) (query : string) (top_k : Z)
    (mq : option Z) (ie : option bool) (cf : option string) :
  (Forall has_text contacts
   ↔ is_ok (vector_search_contacts_tool contacts query top_k mq ie cf) = true)
  ∧ (¬ Forall has_text contacts
     ↔ vector_search_contacts_tool contacts query top_k mq ie cf = Raise TypeError)
  ∧ (∀ rows, load_contacts rows = Ok contacts →
       (Forall has_text contacts
        ↔ Forall (λ row : RawRecord, is_Some (row !! "Title") ∧ is_Some (row !! "Company Name")
                                     ∧ is_Some (row !! "Industry")) rows)).
Proof.
  split_and!.
  - apply search_total.
  - split.
    + intros H. unfold vector_search_contacts_tool. by rewrite score_contacts_raises.
    + intros H Htext. apply (search_total contacts query top_k mq ie cf) in Htext.
      by rewrite H in Htext.
  - intros rows Hload. apply load_contacts_rows in Hload.
    induction Hload as [|row c rows contacts Hrow _ IH]; [done|].
    rewrite !Forall_cons, IH.
    assert (has_text c ↔ is_Some (row !! "Title") ∧ is_Some (row !! "Company Name")
                          ∧ is_Some (row !! "Industry")) as ->; [|done].
    unfold transform_apollo_to_contact in Hrow.
    destruct (Py.int _); simpl in Hrow; [|discriminate]. by injection Hrow as <-.
Qed.

(** X16: the extracted keywords are the vocabulary terms that occur in the
    lower-cased query, listed in vocabulary order (not in query order) and
    without repetition; the extraction ignores letter case, and text added
    around a query never loses a keyword. *)
Theorem extract_keywords_vocabulary (query : string) :
  extract_keywords query `sublist_of` terms
  ∧ (∀ k, k ∈ extract_keywords query ↔ k ∈ terms ∧ occurs_in k (Py.lower query))
  ∧ NoDup (extract_keywords query)
  ∧ extract_keywords (Py.lower query) = extract_keywords query
  ∧ (∀ before after k, k ∈ extract_keywords query →
       k ∈ extract_keywords (before +:+ query +:+ after)).
Proof.
  assert (∀ q k, k ∈ extract_keywords q ↔ k ∈ terms ∧ occurs_in k (Py.lower q)) as Hin.
  { intros q k. unfold extract_keywords. cbv zeta.
    rewrite !list_elem_of_In, filter_In, contains_occurs. done. }
  split_and!.
  - apply list_filter_sublist.
  - apply Hin.
  - apply (sublist_NoDup _ terms); [|apply list_filter_sublist].
    unfold terms. apply NoDup_ListNoDup. repeat constructor; simpl; intuition discriminate.
  - unfold extract_keywords. cbv zeta. by rewrite lower_idemp.
  - intros before after k. rewrite !Hin. intros [Hk Hocc]. split; [done|].
    rewrite !lower_app. apply contains_occurs, contains_extend. by apply contains_occurs.
Qed.

Lemma relevance_positive (keywords : list string) (score : nat) :
  0 < score ≤ length keywords → (0 < relevance keywords score)%Q.
Proof.
  intros [Hpos Hle]. unfold relevance. destruct keywords as [|k keywords].
  - simpl in Hle. lia.
  - unfold Qlt. cbn [Qnum Qden]. lia.
Qed.

(** X17: whenever the search returns, totalMatched is the number of hits
    and at most a non-negative [top_k]; every hit scored at least one
    keyword, so its relevance is positive; and every hit passes the filters
    that are set: its quality score is not below a non-zero
    [min_quality_score] (a floor of 0 is not applied), its executive flag
    equals [is_executive], and its country equals a non-empty [country]. *)
Theorem search_hits_pass_filters (contacts : list Contact) (query : string) (top_k : Z)
    (mq : option Z) (ie : option bool) (cf : option string) (r : SearchResult.t) :
  vector_search_contacts_tool contacts query top_k mq ie cf = Ok r →
  SearchResult.totalMatched r = length (SearchResult.contacts r)
  ∧ ((0 ≤ top_k)%Z → SearchResult.totalMatched r ≤ Z.to_nat top_k)
  ∧ Forall (λ h,
      (0 < SearchHit.relevanceScore h)%Q
      ∧ (∀ m, mq = Some m → m ≠ 0%Z →
              (m ≤ Minimal.qualityScore (SearchHit.contact h))%Z)
      ∧ (∀ e, ie = Some e → Minimal.isExecutive (SearchHit.contact h) = e)
      ∧ (∀ s, cf = Some s → s ≠ "" → Minimal.country (SearchHit.contact h) = Some s))
    (SearchResult.contacts r).
Proof.
  intros Hr. destruct (search_inv _ _ _ _ _ _ _ Hr) as (scored & Hscored & Hres & _ & Htot).
  destruct (score_contacts_inv _ _ _ Hscored) as (Hall & _ & _).
  split; [done|]. split.
  - intros Htop. rewrite Htot, Hres, length_fmap, slice_to_nonneg by done.
    rewrite length_take. lia.
  - rewrite Hres. apply Forall_fmap, Forall_forall. intros p Hp.
    apply (sublist_subseteq _ _ (prefix_sublist _ _ (slice_to_prefix _ _))) in Hp.
    apply list_elem_of_In, filter_In in Hp as [Hp Hpass].
    apply list_elem_of_In in Hp. rewrite sort_by_score_perm in Hp.
    rewrite Forall_forall in Hall. specialize (Hall p Hp).
    split; [by apply relevance_positive|].
    unfold passes_filters in Hpass. apply andb_true_iff in Hpass as [Hpass Hc].
    apply andb_true_iff in Hpass as [Hq He]. cbn.
    split_and!.
    + intros m -> Hm. apply negb_true_iff, andb_false_iff in Hq as [Hq|Hq].
      * apply negb_false_iff, Z.eqb_eq in Hq. by destruct Hm.
      * apply Z.ltb_ge in Hq. exact Hq.
    + intros e ->. simpl. destruct (isExecutive p.1), e; simpl in He; congruence.
    + intros s -> Hs. apply negb_true_iff, andb_false_iff in Hc as [Hc|Hc].
      * by destruct s.
      * apply negb_false_iff, bool_decide_eq_true in Hc. exact Hc.
Qed.

Lemma search_hits_pass_filters_witness :
  ∃ r, vector_search_contacts_tool sample_contacts "payment for travel" 1
         (Some 40%Z) None (Some "Mexico") = Ok r
       ∧ SearchResult.totalMatched r = 1
       ∧ Forall (λ h, Minimal.country (SearchHit.contact h) = Some "Mexico")
                (SearchResult.contacts r).
Proof.
  destruct (vector_search_contacts_tool sample_contacts "payment for travel" 1
              (Some 40%Z) None (Some "Mexico")) as [r|e] eqn:Hr.
  - exists r. split; [reflexivity|].
    destruct (search_hits_pass_filters _ _ _ _ _ _ _ Hr) as (_ & _ & Hall).
    split; [vm_compute in Hr; by injection Hr as <-|].
    eapply Forall_impl; [exact Hall|]. intros h (_ & _ & _ & Hc). by apply Hc.
  - vm_compute in Hr. discriminate.
Defined.

(** ** Chat messages *)

Lemma convert_foldl_acc (messages : list ChatMessage) (acc : list LcMessage) :
  foldl (λ lc_messages msg,
           if bool_decide (role msg = "user") then
             lc_messages ++ [HumanMessage (content msg)]
           else if bool_decide (role msg = "assistant") then
             lc_messages ++ [AIMessage (content msg)]
           else if bool_decide (role msg = "system") then
             lc_messages ++ [SystemMessage (content msg)]
           else lc_messages) acc messages
  = acc ++ convert_to_langchain_messages messages.
Proof.
  unfold convert_to_langchain_messages.
  revert acc. induction messages as [|msg messages IH]; intros acc.
  - by rewrite app_nil_r.
  - cbn [foldl]. rewrite IH, (IH (if bool_decide (role msg = "user") then _ else _)).
    repeat case_bool_decide; by rewrite <- ?app_assoc.
Qed.

Lemma convert_cons (msg : ChatMessage) (messages : list ChatMessage) :
  convert_to_langchain_messages (msg :: messages)
  = convert_to_langchain_messages [msg] ++ convert_to_langchain_messages messages.
Proof.
  unfold convert_to_langchain_messages at 1. cbn [foldl]. by rewrite convert_foldl_acc.
Qed.

(** X18: the conversion keeps the messages whose role is exactly "user",
    "assistant" or "system", in order and with their role and content, and
    silently drops every other message (also "User" or an empty role); it
    distributes over concatenation, so it never reorders or merges. *)
Theorem convert_messages_keeps_known_roles (messages : list ChatMessage) :
  (λ m, (lc_role m, lc_content m)) <$> convert_to_langchain_messages messages
  = (λ msg, (role msg, content msg))
    <$> filter (λ msg, role msg ∈ ["user"; "assistant"; "system"]) messages
  ∧ length (convert_to_langchain_messages messages) ≤ length messages
  ∧ (∀ more, convert_to_langchain_messages (messages ++ more)
             = convert_to_langchain_messages messages
               ++ convert_to_langchain_messages more).
Proof.
  assert ((λ m, (lc_role m, lc_content m)) <$> convert_to_langchain_messages messages
          = (λ msg, (role msg, content msg))
            <$> filter (λ msg, role msg ∈ ["user"; "assistant"; "system"]) messages) as Heq.
  { induction messages as [|msg messages IH]; [done|].
    rewrite convert_cons, fmap_app, IH, filter_cons.
    unfold convert_to_langchain_messages. cbn [foldl].
    destruct msg as [r c]. cbn [role content].
    repeat case_bool_decide; subst; case_decide as Hin; try done.
    - exfalso. apply Hin. set_solver.
    - exfalso. apply Hin. set_solver.
    - exfalso. apply Hin. set_solver.
    - exfalso. set_solver. }
  split; [exact Heq|]. split.
  - apply (f_equal length) in Heq. rewrite !length_fmap in Heq. rewrite Heq.
    apply length_filter.
  - intros more. unfold convert_to_langchain_messages at 1.
    rewrite foldl_app. fold (convert_to_langchain_messages messages).
    apply convert_foldl_acc.
Qed.

Example convert_messages_example :
  convert_to_langchain_messages
    [ mkChatMessage "system" "Be brief."; mkChatMessage "User" "dropped";
      mkChatMessage "user" "Find CFOs"; mkChatMessage "tool" "dropped";
      mkChatMessage "assistant" "Here they are" ]
  = [ SystemMessage "Be brief."; HumanMessage "Find CFOs"; AIMessage "Here they are" ].
Proof. reflexivity. Qed.

(** ** CORS origins *)

Lemma join_cons (sep x y : string) (l : list string) :
  Py.join sep (x :: y :: l) = x +:+ sep +:+ Py.join sep (y :: l).
Proof. reflexivity. Qed.

Lemma split_cons (sep c : ascii) (s : string) :
  Py.split sep (String c s)
  = if Ascii.eqb c sep then EmptyString :: Py.split sep s
    else match Py.split sep s with
         | [] => [String c EmptyString]
         | w :: ws => String c w :: ws
         end.
Proof. reflexivity. Qed.

Lemma split_length (sep : ascii) (s : string) :
  length (Py.split sep s) = S (length (filter (λ c, c = sep) (chars s))).
Proof.
  unfold chars. induction s as [|c s IH]; [done|].
  rewrite split_cons. cbn [list_ascii_of_string]. rewrite filter_cons.
  pose proof (split_nonempty sep s) as Hne.
  destruct (Ascii.eqb_spec c sep) as [->|Hc].
  - rewrite decide_True by done. simpl. by rewrite IH.
  - rewrite decide_False by done. destruct (Py.split sep s); [done|]. exact IH.
Qed.

(** Splitting at commas and joining with commas gives the string
    back; the split has one more piece than the string has commas (so it is
    never empty) and no piece contains a comma. *)
Theorem split_join_round_trip (s : string) :
  Py.join "," (Py.split "," s) = s
  ∧ length (Py.split "," s) = S (length (filter (λ c, c = ","%char) (chars s)))
  ∧ Forall (λ w, ("," : ascii) ∉ chars w) (Py.split "," s).
Proof.
  split_and!; [|apply split_length|apply split_no_sep].
  induction s as [|c s IH]; [done|].
  rewrite split_cons. pose proof (split_nonempty "," s) as Hne.
  destruct (Py.split "," s) as [|w ws]; [done|].
  destruct (Ascii.eqb_spec c ",") as [->|Hc].
  - rewrite join_cons, IH. reflexivity.
  - destruct ws as [|w' ws].
    + simpl in *. by rewrite IH.
    + rewrite join_cons in *. rewrite append_cons. by rewrite IH.
Qed.

Lemma parse_list_step (w : string) (ws : list string) :
  omap (λ t, if Py.truthy_str (Py.strip t) then Some (Py.strip t) else None) (w :: ws)
  = match Py.strip w with
    | EmptyString => omap (λ t, if Py.truthy_str (Py.strip t) then Some (Py.strip t) else None) ws
    | String x r =>
        String x r
        :: omap (λ t, if Py.truthy_str (Py.strip t) then Some (Py.strip t) else None) ws
    end.
Proof. cbn [omap list_omap]. by destruct (Py.strip w). Qed.

(** X19: the list of CORS origins has one entry per comma-separated piece
    of the setting, empty pieces included (an empty setting gives one
    empty origin, not the empty list); every entry is free of commas and of
    whitespace at both ends.  The default setting gives the two localhost
    origins, and dropping the empty entries gives what the normaliser's
    list parsing gives. *)
Theorem cors_origins_list_entries (cors_origins : string) :
  length (cors_origins_list cors_origins)
  = S (length (filter (λ c, c = ","%char) (chars cors_origins)))
  ∧ Forall (λ origin, stripped origin ∧ ("," : ascii) ∉ chars origin)
           (cors_origins_list cors_origins)
  ∧ filter (λ origin, origin ≠ "") (cors_origins_list cors_origins)
    = parse_list cors_origins
  ∧ cors_origins_list "" = [""]
  ∧ cors_origins_list cors_origins_default
    = ["http://localhost:3000"; "http://localhost:3001"].
Proof.
  unfold cors_origins_list. split_and!.
  - by rewrite length_fmap, split_length.
  - apply Forall_fmap. eapply Forall_impl; [apply (split_no_sep "," cors_origins)|].
    intros w Hw. simpl. split; [apply strip_stripped|].
    intros Hin. apply Hw. by apply (strip_chars w).
  - unfold parse_list. induction (Py.split "," cors_origins) as [|w ws IH]; [done|].
    rewrite fmap_cons, filter_cons, parse_list_step.
    destruct (Py.strip w) eqn:Hw.
    + rewrite decide_False by (intros H; by apply H). exact IH.
    + rewrite decide_True by done. by rewrite IH.
  - reflexivity.
  - vm_compute. reflexivity.
Qed.

Example cors_origins_examples :
  cors_origins_list " https://app.example.com , ,https://x.example.com," 
  = ["https://app.example.com"; ""; "https://x.example.com"; ""].
Proof. vm_compute. reflexivity. Qed.

(** ** Composio tool cache *)

Section ComposioCache.
Context {Tool : Type}.



End ComposioCache.

Example composio_run_example :
  get_composio_tools_run None
    [ (None, λ _, Some ["sheets"]);
      (Some "https://mcp.example/sse", λ _, None);
      (Some "https://mcp.example/sse", λ _, Some ["sheets"; "gmail"]);
      (Some "https://mcp.example/sse", λ _, Some ["slack"]);
      (None, λ _, None) ]
  = ([ []; []; ["sheets"; "gmail"]; ["sheets"; "gmail"]; ["sheets"; "gmail"] ],
     Some ["sheets"; "gmail"]).
Proof. reflexivity. Qed.
